(** * Huffman visualizer: the coding engine of [huffman_visualizer.py]

    A shallow embedding of the Huffman logic of the program
    ([Node], [build_huffman_tree], [assign_codes]) and of the part of
    [HuffmanApp] that computes with it ([animate_frequency_count],
    [run_huffman_steps]), together with the [heapq] functions of the Python
    standard library that [build_huffman_tree] calls.

    Conventions of the embedding.
    - A Python character is a string of length one, so a symbol is a [string];
      text is a [string] of bytes (text outside ASCII is not modelled).
    - A Python [int] is a [Z]; list positions are [nat].
    - A Python [float] is an IEEE 754 binary64 number, a [spec_float] of the
      standard library; each operation on floats rounds once, to nearest,
      ties to even.
    - A statement that can raise returns a [result]; [Raise] carries the
      Python exception.
    - A [dict] whose iteration order matters ([freq_map], iterated by
      [items()]) is an association list in insertion order; the code map,
      which is only looked up and sorted, is a [gmap].
    - A [while] loop is a [Fixpoint] on a counter started at a value the loop
      cannot outlive: for each loop a lemma shows that it returns with its
      exit condition true, and another that a larger counter changes
      nothing.
    - The drawing, logging and timing statements of [HuffmanApp] have no
      effect on the values computed and are left out. *)

From stdpp Require Import gmap strings list fin_maps.
From Stdlib Require Import ZArith QArith Lia Ascii.
From Stdlib Require Import Floats.SpecFloat HexadecimalString.
Close Scope Q_scope.
Open Scope string_scope.
Open Scope list_scope.
Open Scope Z_scope.
Open Scope nat_scope.

(** ** Exceptions *)

Inductive arith_exn : Type :=
| ZeroDivisionError
| OverflowError
| ValueError.

Inductive exn : Type :=
| IndexError
| KeyError
| Arithmetic (e : arith_exn).

Inductive result (A : Type) : Type :=
| Ok (a : A)
| Raise (e : exn).

Arguments Ok {A} a.
Arguments Raise {A} e.

#[global] Instance result_ret : MRet result := fun A a => Ok a.
#[global] Instance result_bind : MBind result := fun A B f m =>
  match m with
  | Ok a => f a
  | Raise e => Raise e
  end.

(** Runs the binds whose first computation is a value. *)
Ltac mstep := cbn [mbind result_bind mret result_ret].

(** [l[i]] for a position inside the list, [IndexError] outside. *)
Definition getitem {A} (l : list A) (i : nat) : result A :=
  match l !! i with
  | Some x => Ok x
  | None => Raise IndexError
  end.

(** [l[i] = x] *)
Definition setitem {A} (l : list A) (i : nat) (x : A) : result (list A) :=
  if decide (i < length l) then Ok (<[i := x]> l) else Raise IndexError.

(** ** Huffman tree node (class [Node]) *)

Abbreviation Symbol := string.

Unset Elimination Schemes.
Inductive Node : Type :=
  mkNode { char : option Symbol; freq : Z; left : option Node; right : option Node }.
Set Elimination Schemes.

(** [Node.__init__(char, freq)] *)
Definition Node_init (char : option Symbol) (freq : Z) : Node :=
  mkNode char freq None None.

(** [Node.__lt__] *)
Definition Node_lt (self other : Node) : bool := (freq self <? freq other)%Z.

Definition set_left (n : Node) (l : option Node) : Node :=
  mkNode (char n) (freq n) l (right n).

Definition set_right (n : Node) (r : option Node) : Node :=
  mkNode (char n) (freq n) (left n) r.

(** Induction on trees, through the optional children. *)
Definition on_child (P : Node -> Prop) (o : option Node) : Prop :=
  match o with
  | Some n => P n
  | None => True
  end.

Fixpoint Node_ind' (P : Node -> Prop)
    (step : forall ch f l r, on_child P l -> on_child P r -> P (mkNode ch f l r))
    (n : Node) : P n :=
  match n with
  | mkNode ch f l r =>
      step ch f l r
        (match l return on_child P l with Some x => Node_ind' P step x | None => I end)
        (match r return on_child P r with Some x => Node_ind' P step x | None => I end)
  end.

(** ** [heapq], on lists of [Node]

    The functions of the standard library that [build_huffman_tree] calls,
    after CPython's [Lib/heapq.py]; entries are compared with [Node.__lt__]
    only. *)

Module heapq.

Fixpoint _siftdown_loop (fuel : nat) (heap : list Node) (startpos pos : nat)
    (newitem : Node) : result (list Node) :=
  match fuel with
  | S fuel' =>
      if decide (startpos < pos) then
        let parentpos := Nat.shiftr (pos - 1) 1 in
        parent ← getitem heap parentpos;
        if Node_lt newitem parent then
          heap ← setitem heap pos parent;
          _siftdown_loop fuel' heap startpos parentpos newitem
        else setitem heap pos newitem
      else setitem heap pos newitem
  | O => setitem heap pos newitem
  end.

Definition _siftdown (heap : list Node) (startpos pos : nat) : result (list Node) :=
  newitem ← getitem heap pos;
  _siftdown_loop pos heap startpos pos newitem.

(** The position of the smaller child: [childpos], or [rightpos] when it is
    in range and [heap[childpos] < heap[rightpos]] does not hold. *)
Definition smaller_child (heap : list Node) (endpos childpos : nat) : result nat :=
  let rightpos := childpos + 1 in
  if decide (rightpos < endpos) then
    c ← getitem heap childpos;
    r ← getitem heap rightpos;
    mret (if negb (Node_lt c r) then rightpos else childpos)
  else mret childpos.

Fixpoint _siftup_loop (fuel : nat) (heap : list Node) (endpos pos childpos : nat)
    : result (list Node * nat) :=
  match fuel with
  | S fuel' =>
      if decide (childpos < endpos) then
        childpos ← smaller_child heap endpos childpos;
        child ← getitem heap childpos;
        heap ← setitem heap pos child;
        _siftup_loop fuel' heap endpos childpos (2 * childpos + 1)
      else mret (heap, pos)
  | O => mret (heap, pos)
  end.

Definition _siftup (heap : list Node) (pos : nat) : result (list Node) :=
  let endpos := length heap in
  let startpos := pos in
  newitem ← getitem heap pos;
  '(heap, pos) ← _siftup_loop (length heap) heap endpos pos (2 * pos + 1);
  heap ← setitem heap pos newitem;
  _siftdown heap startpos pos.

Definition heappush (heap : list Node) (item : Node) : result (list Node) :=
  let heap := heap ++ [item] in
  _siftdown heap 0 (length heap - 1).

Definition heappop (heap : list Node) : result (Node * list Node) :=
  match last heap with
  | None => Raise IndexError
  | Some lastelt =>
      let heap := take (length heap - 1) heap in
      match heap with
      | [] => mret (lastelt, heap)
      | _ :: _ =>
          returnitem ← getitem heap 0;
          heap ← setitem heap 0 lastelt;
          heap ← _siftup heap 0;
          mret (returnitem, heap)
      end
  end.

Fixpoint heapify_loop (positions : list nat) (x : list Node) : result (list Node) :=
  match positions with
  | [] => mret x
  | i :: positions' =>
      x ← _siftup x i;
      heapify_loop positions' x
  end.

Definition heapify (x : list Node) : result (list Node) :=
  let n := length x in
  heapify_loop (reverse (seq 0 (n / 2))) x.

End heapq.

(** ** Huffman logic *)

Definition MergeStep : Type := Node * Node * Z.

Fixpoint build_loop (fuel : nat) (heap : list Node) (steps : list MergeStep)
    : result (list Node * list MergeStep) :=
  match fuel with
  | S fuel' =>
      if decide (1 < length heap) then
        '(left, heap) ← heapq.heappop heap;
        '(right, heap) ← heapq.heappop heap;
        let parent := Node_init None (freq left + freq right) in
        let parent := set_left parent (Some left) in
        let parent := set_right parent (Some right) in
        heap ← heapq.heappush heap parent;
        build_loop fuel' heap (steps ++ [(left, right, freq parent)])
      else mret (heap, steps)
  | O => mret (heap, steps)
  end.

Definition build_huffman_tree (freq_map : list (Symbol * Z))
    : result (option Node * list MergeStep) :=
  let heap := map (fun '(ch, freq) => Node_init (Some ch) freq) freq_map in
  heap ← heapq.heapify heap;
  '(heap, steps) ← build_loop (length heap) heap [];
  mret (head heap, steps).

Fixpoint assign_codes_node (node : Node) (prefix : string)
    (code_map : gmap Symbol string) : gmap Symbol string :=
  match node with
  | mkNode char _ left right =>
      let code_map :=
        match char with
        | Some ch => <[ch := prefix]> code_map
        | None => code_map
        end in
      let code_map :=
        match left with
        | Some l => assign_codes_node l (prefix +:+ "0") code_map
        | None => code_map
        end in
      match right with
      | Some r => assign_codes_node r (prefix +:+ "1") code_map
      | None => code_map
      end
  end.

Definition assign_codes (node : option Node) (prefix : string)
    (code_map : option (gmap Symbol string)) : gmap Symbol string :=
  let code_map := default ∅ code_map in
  match node with
  | Some n => assign_codes_node n prefix code_map
  | None => code_map
  end.

(** ** Python floats and the arithmetic that can raise

    A float is an IEEE 754 binary64 number, here a [spec_float] with 53 bits
    of precision, rounded to nearest, ties to even. *)

Inductive computed (A : Type) : Type :=
| Computed (a : A)
| Failed (e : arith_exn).

Arguments Computed {A} a.
Arguments Failed {A} e.

#[global] Instance computed_ret : MRet computed := fun A a => Computed a.
#[global] Instance computed_bind : MBind computed := fun A B f m =>
  match m with
  | Computed a => f a
  | Failed e => Failed e
  end.

Definition float_prec : Z := 53.
Definition float_emax : Z := 1024.

(** [float(z)] for a literal that a float holds exactly *)
Definition float_const (z : Z) : spec_float :=
  binary_normalize float_prec float_emax z 0 false.

(** [a / b] on two [int]s: the quotient rounded once, [ZeroDivisionError]
    for a zero divisor, [OverflowError] when no float is large enough. *)
Definition int_truediv (a b : Z) : computed spec_float :=
  if decide (b = 0%Z) then Failed ZeroDivisionError
  else if decide (a = 0%Z) then Computed (S754_zero (b <? 0)%Z)
  else
    let '(mz, ez, lz) :=
      SFdiv_core_binary float_prec float_emax (Z.abs a) 0 (Z.abs b) 0 in
    match binary_round_aux float_prec float_emax (xorb (a <? 0)%Z (b <? 0)%Z) mz ez lz with
    | S754_infinity _ => Failed OverflowError
    | q => Computed q
    end.

(** [int(x)] on a float: towards zero; an infinity or a NaN raises. *)
Definition int_of_float (x : spec_float) : computed Z :=
  match x with
  | S754_zero _ => Computed 0%Z
  | S754_finite s m e =>
      let v := (if (0 <=? e)%Z then Z.pos m * 2 ^ e else Z.pos m / 2 ^ (- e))%Z in
      Computed (if s then (- v)%Z else v)
  | S754_infinity _ => Failed OverflowError
  | S754_nan => Failed ValueError
  end.

(** [f"{i:02x}"]: lower-case hexadecimal, the sign first, zeros after it up
    to a width of two. *)
Definition format_02x (i : Z) : string :=
  let digits := NilZero.string_of_uint (N.to_hex_uint (Z.to_N (Z.abs i))) in
  let sign := if (i <? 0)%Z then "-" else "" in
  let zeros := (2 - String.length sign) - String.length digits in
  sign +:+ (String.concat "" (replicate zeros "0") +:+ digits).

(** A Python number: an [int] or a [float]. *)
Inductive number : Type :=
| Int (z : Z)
| Float (x : spec_float).

(** An arithmetic error, raised where other exceptions can be. *)
Definition raised {A} (c : computed A) : result A :=
  match c with
  | Computed a => Ok a
  | Failed e => Raise (Arithmetic e)
  end.

(** ** The computing part of [HuffmanApp] *)

(** Iterating over a Python string yields its characters, each a string of
    length one. *)
Definition chars (text : string) : list Symbol :=
  map (fun c => String c EmptyString) (String.list_ascii_of_string text).

Definition chr (i : nat) : Symbol := String (Ascii.ascii_of_nat i) EmptyString.

Definition ascii_lower (c : Ascii.ascii) : Ascii.ascii :=
  let n := Ascii.nat_of_ascii c in
  if (65 <=? n) && (n <=? 90) then Ascii.ascii_of_nat (n + 32) else c.

(** [str.lower()] on ASCII text *)
Fixpoint lower (text : string) : string :=
  match text with
  | EmptyString => EmptyString
  | String c rest => String (ascii_lower c) (lower rest)
  end.

(** [ch in d] and [d[ch] += 1] on a [dict] kept in insertion order *)
Definition dict_contains (d : list (Symbol * Z)) (ch : Symbol) : bool :=
  bool_decide (ch ∈ d.*1).

Fixpoint dict_incr (d : list (Symbol * Z)) (ch : Symbol) : result (list (Symbol * Z)) :=
  match d with
  | [] => Raise KeyError
  | (k, v) :: d' =>
      if decide (k = ch) then mret ((k, (v + 1)%Z) :: d')
      else d' ← dict_incr d' ch; mret ((k, v) :: d')
  end.

(** The table that [animate_frequency_count] hands to its callback: the inner
    [step] run once per character of [text.lower()]. *)
Fixpoint count_steps (text_to_process : list Symbol) (freq_data : list (Symbol * Z))
    : result (list (Symbol * Z)) :=
  match text_to_process with
  | [] => mret freq_data
  | ch :: rest =>
      freq_data ←
        (if dict_contains freq_data ch then dict_incr freq_data ch
         else mret freq_data);
      count_steps rest freq_data
  end.

Definition animate_frequency_count (text : string) : result (list (Symbol * Z)) :=
  let freq_data := map (fun i => (chr i, 0%Z)) (seq 97 26) in
  let text_to_process := lower text in
  count_steps (chars text_to_process) freq_data.

(** [codes[ch]] and [ch in codes] on the code map *)
Definition codes_getitem (codes : gmap Symbol string) (ch : Symbol) : result string :=
  match codes !! ch with
  | Some code => Ok code
  | None => Raise KeyError
  end.

Definition codes_contains (codes : gmap Symbol string) (ch : Symbol) : bool :=
  bool_decide (ch ∈ dom codes).

(** The generator [codes[ch] for ch in message if ch in codes] *)
Fixpoint encode_parts (codes : gmap Symbol string) (message : list Symbol)
    : result (list string) :=
  match message with
  | [] => mret []
  | ch :: rest =>
      if codes_contains codes ch then
        code ← codes_getitem codes ch;
        parts ← encode_parts codes rest;
        mret (code :: parts)
      else encode_parts codes rest
  end.

(** [''.join(codes[ch] for ch in message if ch in codes)] *)
Definition encode (message : list Symbol) (codes : gmap Symbol string) : result string :=
  parts ← encode_parts codes message;
  mret (String.concat "" parts).

Record Report : Type := mkReport {
  merge_steps : list MergeStep;
  codes : gmap Symbol string;
  encoded : string;
  original_bits : Z;
  compressed_bits : Z;
  compression_ratio : number
}.

(** The values [run_huffman_steps] computes and logs.  The ratio is the
    float [((original_bits - compressed_bits) / original_bits) * 100], the
    division of two [int]s rounded and then the product rounded, or the
    [int] 0 of the [else] branch. *)
Definition run_huffman_steps (final_freq : list (Symbol * Z)) (text : string)
    : result Report :=
  '(root, merge_steps) ← build_huffman_tree final_freq;
  let codes := assign_codes root "" None in
  encoded ← encode (chars (lower text)) codes;
  let original_bits := (Z.of_nat (String.length text) * 8)%Z in
  let compressed_bits := Z.of_nat (String.length encoded) in
  compression_ratio ←
    (if (0 <? original_bits)%Z
     then
       q ← raised (int_truediv (original_bits - compressed_bits) original_bits);
       mret (Float (SFmul float_prec float_emax q (float_const 100)))
     else mret (Int 0));
  mret (mkReport merge_steps codes encoded original_bits compressed_bits
          compression_ratio).

(** * Specification vocabulary *)

(** ** Heap order on an array *)

Section HeapOrderDefs.
Implicit Types (h heap : list Node) (x y p : Node) (s pos c : nat).

(** The position [(c - 1) >> 1] of the parent of position [c]. *)
Definition parent (c : nat) : nat := Nat.shiftr (c - 1) 1.

(** [desc s pos]: position [pos] lies in the subtree rooted at [s]. *)
Inductive desc (s : nat) : nat -> Prop :=
| desc_self : desc s s
| desc_child c : 0 < c -> desc s (parent c) -> desc s c.

(** The entry at [c] is not below its parent's. *)
Definition edge_ok h c : Prop :=
  forall x p, h !! c = Some x -> h !! parent c = Some p -> (freq p <= freq x)%Z.

(** Every edge whose upper end is at position [s] or later is in order. *)
Definition ordered_from s h : Prop :=
  forall c, 0 < c -> s <= parent c -> edge_ok h c.

Definition is_heap h : Prop := ordered_from 0 h.

(** The array with a hole at [pos]: the edges that do not touch [pos] are in
    order, and the entries below [pos] are not below the entry above it. *)
Definition hole_inv s pos h : Prop :=
  (forall c, 0 < c -> s <= parent c -> c <> pos -> parent c <> pos -> edge_ok h c) /\
  (s < pos -> forall c x p, 0 < c -> parent c = pos ->
     h !! c = Some x -> h !! parent pos = Some p -> (freq p <= freq x)%Z).

Definition above_children x pos h : Prop :=
  forall c y, 0 < c -> parent c = pos -> h !! c = Some y -> (freq x <= freq y)%Z.
End HeapOrderDefs.

(** ** Trees and code tables *)

(** The leaf made for one entry of the frequency table. *)
Definition leaf_of (entry : Symbol * Z) : Node :=
  Node_init (Some entry.1) entry.2.

(** The node [parent] that one turn of the loop of [build_huffman_tree]
    makes of the two nodes popped. *)
Definition merge (a b : Node) : Node :=
  mkNode None (freq a + freq b) (Some a) (Some b).

(** A leaf carries a symbol and no children; an inner node carries two
    children and no symbol. *)
Inductive full_tree : Node -> Prop :=
| full_leaf ch f : full_tree (mkNode (Some ch) f None None)
| full_inner f l r :
    full_tree l -> full_tree r -> full_tree (mkNode None f (Some l) (Some r)).

(** The symbol-bearing nodes of a tree with their weights, left to right. *)
Fixpoint leaves (n : Node) : list (Symbol * Z) :=
  match n with
  | mkNode char f left right =>
      match char with Some ch => [(ch, f)] | None => [] end ++
      match left with Some l => leaves l | None => [] end ++
      match right with Some r => leaves r | None => [] end
  end.

(** The symbol-bearing nodes of a tree with the path that leads to each,
    [prefix] being the path to [n]. *)
Fixpoint paths (n : Node) (prefix : string) : list (Symbol * string) :=
  match n with
  | mkNode char _ left right =>
      match char with Some ch => [(ch, prefix)] | None => [] end ++
      match left with Some l => paths l (prefix +:+ "0") | None => [] end ++
      match right with Some r => paths r (prefix +:+ "1") | None => [] end
  end.

Definition sum_freq (freq_map : list (Symbol * Z)) : Z :=
  foldr (fun entry acc => (entry.2 + acc)%Z) 0%Z freq_map.

Definition is_prefix (c1 c2 : string) : Prop := exists s, c2 = c1 +:+ s.

Definition prefix_free (codes : gmap Symbol string) : Prop :=
  forall s1 s2 c1 c2, s1 <> s2 ->
    codes !! s1 = Some c1 -> codes !! s2 = Some c2 -> ~ is_prefix c1 c2.

(** The code map after recording the pairs of [l], in order, in [m]. *)
Definition record_all (m : gmap Symbol string) (l : list (Symbol * string))
    : gmap Symbol string :=
  foldl (fun m kv => <[kv.1 := kv.2]> m) m l.

(** ** The greedy merge, as the specification words it *)

(** [a] is a lowest-weight node of the queue [q]. *)
Definition lowest (a : Node) (q : list Node) : Prop :=
  forall y, y ∈ q -> (freq a <= freq y)%Z.

(** One pop-pop-push cycle on a queue, seen as a multiset of nodes, and a
    trace: more than one node remains, [a] is a lowest-weight node, [b] a
    lowest-weight node of the rest, the new inner node has [a] left, [b] right
    and their weights added, it joins the rest, and the step is appended to
    the trace. *)
Inductive greedy_step :
  list Node * list MergeStep -> list Node * list MergeStep -> Prop :=
| greedy_merge q q1 q2 q' a b trace :
    1 < length q ->
    q ≡ₚ a :: q1 -> lowest a q ->
    q1 ≡ₚ b :: q2 -> lowest b q1 ->
    q' ≡ₚ merge a b :: q2 ->
    greedy_step (q, trace) (q', trace ++ [(a, b, (freq a + freq b)%Z)]).

(** A run of the greedy merge from one leaf per entry to a queue of at most
    one node, whose node, if any, is the root. *)
Definition greedy_run (freq_map : list (Symbol * Z)) (root : option Node)
    (trace : list MergeStep) : Prop :=
  exists final,
    rtc greedy_step (map leaf_of freq_map, []) (final, trace) /\
    length final <= 1 /\ root = head final.

(** What holds of the queue and the trace all along a run on [freq_map]. *)
Definition run_inv (freq_map : list (Symbol * Z))
    (st : list Node * list MergeStep) : Prop :=
  Forall full_tree st.1 /\
  Forall (fun n => freq n = sum_freq (leaves n)) st.1 /\
  flat_map leaves st.1 ≡ₚ freq_map /\
  length st.1 + length st.2 = length freq_map /\
  (freq_map <> [] -> st.1 <> []) /\
  Forall (fun step : MergeStep => step.2 = (freq step.1.1 + freq step.1.2)%Z) st.2.

(** ** Encoding, as the specification words it *)

(** The codes of the message symbols that are keys of the code table, in
    message order, concatenated. *)
Definition encode_skipping (message : list Symbol) (codes : gmap Symbol string)
    : string :=
  String.concat ""
    (map (fun s => codes !!! s) (filter (fun s => s ∈ dom codes) message)).

(** ** The compression ratio, as the specification words it *)

(** The rational that a float or an [int] stands for; an infinity and a NaN
    stand for none. *)
Definition float_value (x : spec_float) : option Q :=
  match x with
  | S754_zero _ => Some 0%Q
  | S754_finite s m e =>
      Some ((if s then -1 else 1) * inject_Z (Z.pos m) * 2 ^ e)%Q
  | S754_infinity _ | S754_nan => None
  end.

Definition number_value (n : number) : option Q :=
  match n with
  | Int z => Some (inject_Z z)
  | Float x => float_value x
  end.

Definition has_value (n : number) (v : Q) : Prop :=
  exists q, number_value n = Some q /\ (q == v)%Q.

(** [ratio] is [(original - compressed) / original * 100] computed with
    floats when [original > 0], and the [int] 0 otherwise. *)
Definition ratio_formula (original compressed : Z) (ratio : number) : Prop :=
  if (0 <? original)%Z
  then exists q,
         int_truediv (original - compressed) original = Computed q /\
         ratio = Float (SFmul float_prec float_emax q (float_const 100))
  else ratio = Int 0.

(** ** Decoding *)

(** Modelled from the spec: the step of the decoder below, left on '0' and
    right on '1'. *)
Definition child (n : Node) (bit : Ascii.ascii) : option Node :=
  if decide (bit = "0"%char) then left n
  else if decide (bit = "1"%char) then right n
  else None.

(** Modelled from the spec: the program has no decoder; this is the decoder
    "built from the same CodeTable" that the round-trip property of the
    specification calls for.  It walks the prefix tree from the root, left on
    '0' and right on '1', emits the symbol of each leaf it reaches and starts
    again at the root. *)
Fixpoint decode_walk (root cur : Node) (bits : string) : list Symbol :=
  match bits with
  | EmptyString => []
  | String bit rest =>
      match child cur bit with
      | None => []
      | Some n =>
          match char n with
          | Some ch => ch :: decode_walk root root rest
          | None => decode_walk root n rest
          end
      end
  end.

(** Where the walk of the decoder stands once it has stepped onto [n]. *)
Definition enter (root n : Node) (bits : string) : list Symbol :=
  match char n with
  | Some ch => ch :: decode_walk root root bits
  | None => decode_walk root n bits
  end.

(** Modelled from the spec: the decoder, for a root that may be absent. *)
Definition decode (root : option Node) (bits : string) : list Symbol :=
  match root with
  | Some r => decode_walk r r bits
  | None => []
  end.

(** * More of the program *)

(** ** The shape of the trees that the merge loop makes *)

(** A tree of leaves and of merges whose left subtree is not heavier than
    the right one. *)
Inductive huffman_node : Node -> Prop :=
| huffman_leaf ch f : huffman_node (mkNode (Some ch) f None None)
| huffman_merge l r :
    huffman_node l -> huffman_node r -> (freq l <= freq r)%Z ->
    huffman_node (merge l r).

(** The nodes of a tree that have a child, the node itself first. *)
Fixpoint inner_nodes (n : Node) : list Node :=
  match n with
  | mkNode _ _ None None => []
  | mkNode _ _ left right =>
      n :: match left with Some l => inner_nodes l | None => [] end ++
           match right with Some r => inner_nodes r | None => [] end
  end.

(** All the nodes of a tree, the node itself first. *)
Fixpoint all_nodes (n : Node) : list Node :=
  match n with
  | mkNode _ _ left right =>
      n :: match left with Some l => all_nodes l | None => [] end ++
           match right with Some r => all_nodes r | None => [] end
  end.

(** The node that a merge step of the trace made. *)
Definition merged_node (step : MergeStep) : Node := merge step.1.1 step.1.2.

(** The weights in [ws] never go down. *)
Definition ascending (ws : list Z) : Prop :=
  forall i j wi wj, i <= j -> ws !! i = Some wi -> ws !! j = Some wj -> (wi <= wj)%Z.

(** What else holds of the queue and the trace all along a run. *)
Definition shape_inv (st : list Node * list MergeStep) : Prop :=
  Forall huffman_node st.1 /\
  flat_map inner_nodes st.1 ≡ₚ map merged_node st.2 /\
  Forall (fun step : MergeStep => (freq step.1.1 <= freq step.1.2)%Z) st.2.

(** With counts that are not negative: a bound [β] under every weight of the
    queue and over half the last merged weight. *)
Definition ascending_inv (st : list Node * list MergeStep) : Prop :=
  exists β : Z,
    (0 <= β)%Z /\
    Forall (fun n => (β <= freq n)%Z) st.1 /\
    (forall w, last (map snd st.2) = Some w -> (w <= 2 * β)%Z) /\
    ascending (map snd st.2).

(** ** Counting *)

(** How many times [ch] occurs in [message]. *)
Definition occurrences (ch : Symbol) (message : list Symbol) : Z :=
  Z.of_nat (length (filter (fun x => x = ch) message)).

(** The 26 keys of [freq_data], in the order the dict is filled. *)
Definition letters : list Symbol := map chr (seq 97 26).

(** [str.isspace()] on an ASCII character *)
Definition isspace (c : Ascii.ascii) : bool :=
  let n := Ascii.nat_of_ascii c in
  ((9 <=? n) && (n <=? 13)) || ((28 <=? n) && (n <=? 32)).

(** [str.lstrip()], [str.rstrip()] and [str.strip()] on ASCII text *)
Fixpoint lstrip (text : string) : string :=
  match text with
  | EmptyString => EmptyString
  | String c rest => if isspace c then lstrip rest else text
  end.

Definition rstrip (text : string) : string :=
  String.rev (lstrip (String.rev text)).

Definition strip (text : string) : string := rstrip (lstrip text).

(** What [run_animation] ends with: the line that asks for text, or the
    values that [run_huffman_steps] reports. *)
Inductive Outcome : Type :=
| Prompt (line : string)
| Done (report : Report).

(** [HuffmanApp.run_animation], on the content of the entry field; the
    frequency count hands its table to [run_huffman_steps] with the stripped
    text. *)
Definition run_animation (input_text : string) : result Outcome :=
  let text := strip input_text in
  if decide (text = "") then mret (Prompt "Please enter some text.")
  else
    freq ← animate_frequency_count text;
    report ← run_huffman_steps freq text;
    mret (Done report).

(** ** Sizes *)

(** The sum of [g x] over the entries [x] of [l]. *)
Definition sum_with {A} (g : A -> Z) (l : list A) : Z :=
  foldr (fun x acc => (g x + acc)%Z) 0%Z l.

(** The number of bits that the table [freq_map] costs with [codes]: each
    count times the length of the symbol's code. *)
Definition coded_size (codes : gmap Symbol string) (freq_map : list (Symbol * Z)) : Z :=
  sum_with (fun entry => (entry.2 * Z.of_nat (String.length (codes !!! entry.1)))%Z)
    freq_map.

(** The weight of each symbol-bearing node of [n] times its depth, [d] being
    the depth of [n]. *)
Fixpoint weighted_depth (n : Node) (d : Z) : Z :=
  match n with
  | mkNode char f left right =>
      (match char with Some _ => f * d | None => 0 end +
       (match left with Some l => weighted_depth l (d + 1) | None => 0 end +
        match right with Some r => weighted_depth r (d + 1) | None => 0 end))%Z
  end.

(** ** Heatmap colour helper *)

Definition get_heat_color (freq max_freq : Z) : computed string :=
  let freq := Z.min freq max_freq in
  q ← int_truediv freq max_freq;
  let intensity_float :=
    SFsub float_prec float_emax (float_const 255)
      (SFmul float_prec float_emax q (float_const 180)) in
  intensity ← int_of_float intensity_float;
  mret ("#ff" +:+ (format_02x intensity +:+ format_02x intensity)).

(** ** What the canvas is asked to draw *)

Inductive canvas_item : Type :=
| create_rectangle (x1 y1 x2 y2 : Z) (fill : string)
| create_text (x y : Z) (text : string) (font : string * Z)
    (fill tags : option string).

(** The loop of [init_freq_blocks], [i] being the index that [enumerate]
    has reached. *)
Fixpoint init_freq_blocks_loop (offset_x spacing : Z) (i : Z)
    (freq_values : list Symbol) : list canvas_item :=
  match freq_values with
  | [] => []
  | letter :: rest =>
      let x := (offset_x + i * spacing)%Z in
      create_rectangle x 20 (x + spacing - 5) 50 "lightgray"
      :: create_text (x + spacing / 2) 35 letter ("Arial", 10%Z) None None
      :: create_text (x + spacing / 2) 65 "0" ("Arial", 10%Z) None None
      :: init_freq_blocks_loop offset_x spacing (i + 1) rest
  end.

(** The items that [init_freq_blocks] creates on a canvas of the given
    width, in the order of creation. *)
Definition init_freq_blocks (canvas_width : Z) : list canvas_item :=
  let freq_values := map chr (seq 97 26) in
  let num_blocks := 26%Z in
  let padding := 40%Z in
  let available_width := (canvas_width - padding)%Z in
  let spacing := (available_width / num_blocks)%Z in
  let offset_x := ((canvas_width - spacing * num_blocks) / 2)%Z in
  init_freq_blocks_loop offset_x spacing 0 freq_values.

(** The loop of [draw_input_text]. *)
Fixpoint draw_input_text_loop (chars_per_row char_width current_index : Z) (i : Z)
    (text : list Symbol) : list canvas_item :=
  match text with
  | [] => []
  | ch :: rest =>
      let row := (i / chars_per_row)%Z in
      let col := (i mod chars_per_row)%Z in
      let x := (20 + col * char_width)%Z in
      let y := (100 + row * 20)%Z in
      let color :=
        if (i <? current_index)%Z then "gray"
        else if (i =? current_index)%Z then "orange" else "black" in
      create_text x y ch ("Arial", 10%Z) (Some color) (Some "input_text")
      :: draw_input_text_loop chars_per_row char_width current_index (i + 1) rest
  end.

(** The items that [draw_input_text] creates on a canvas of the given
    width. *)
Definition draw_input_text (canvas_width : Z) (text : string) (current_index : Z)
    : list canvas_item :=
  let char_width := 8%Z in
  let chars_per_row := Z.max 1 ((canvas_width - 40) / char_width) in
  draw_input_text_loop chars_per_row char_width current_index 0 (chars text).

(** The anchor of an item: where a text is put, the upper left corner of a
    rectangle. *)
Definition item_x (item : canvas_item) : Z :=
  match item with
  | create_rectangle x1 _ _ _ _ => x1
  | create_text x _ _ _ _ _ => x
  end.

Definition item_y (item : canvas_item) : Z :=
  match item with
  | create_rectangle _ y1 _ _ _ => y1
  | create_text _ y _ _ _ _ => y
  end.

(** The left and right edge of a rectangle. *)
Definition rect_extent (item : canvas_item) : option (Z * Z) :=
  match item with
  | create_rectangle x1 _ x2 _ _ => Some (x1, x2)
  | create_text _ _ _ _ _ _ => None
  end.

(** ** Depth assignments

    What a tree costs depends only on the weight and the depth of each of its
    leaves.  A list of such pairs is the list of the leaves of some full tree
    when its depths add up as in Kraft's equality. *)

(** The weight of each entry times its depth. *)
Definition cost (l : list (Z * nat)) : Z :=
  sum_with (fun e => (e.1 * Z.of_nat e.2)%Z) l.

(** [2 ^ (B - d)] summed over the depths [d] of [l], none of which is to
    exceed [B]. *)
Definition kraft_sum (B : nat) (l : list (Z * nat)) : Z :=
  sum_with (fun e => (2 ^ Z.of_nat (B - e.2))%Z) l.

Definition kraft_at (B : nat) (l : list (Z * nat)) : Prop :=
  Forall (fun e => e.2 <= B) l /\ kraft_sum B l = (2 ^ Z.of_nat B)%Z.

(** The weight and the depth of each symbol-bearing node of [n], [d] being
    the depth of [n]. *)
Fixpoint leaf_depths (n : Node) (d : nat) : list (Z * nat) :=
  match n with
  | mkNode char f left right =>
      match char with Some _ => [(f, d)] | None => [] end ++
      match left with Some l => leaf_depths l (S d) | None => [] end ++
      match right with Some r => leaf_depths r (S d) | None => [] end
  end.

Fixpoint height (n : Node) : nat :=
  match n with
  | mkNode _ _ left right =>
      Nat.max (match left with Some l => S (height l) | None => 0 end)
              (match right with Some r => S (height r) | None => 0 end)
  end.

(** The tree [n] with the weight [g ch] at each node that bears a symbol
    [ch]; the other weights and the shape are those of [n]. *)
Fixpoint with_counts (g : Symbol -> Z) (n : Node) : Node :=
  match n with
  | mkNode char f left right =>
      mkNode char (match char with Some ch => g ch | None => f end)
        (match left with Some l => Some (with_counts g l) | None => None end)
        (match right with Some r => Some (with_counts g r) | None => None end)
  end.

(** The count of [s] in [freq_map], 0 when it has none. *)
Definition count_of (freq_map : list (Symbol * Z)) (s : Symbol) : Z :=
  default 0%Z ((list_to_map freq_map : gmap Symbol Z) !! s).

(** ** Frequency tables used as examples *)

Definition one_symbol : list (Symbol * Z) := [("a", 5%Z)].

Definition scenario : list (Symbol * Z) :=
  [("a", 5%Z); ("b", 9%Z); ("c", 12%Z); ("d", 13%Z); ("e", 16%Z); ("f", 45%Z)].

Definition with_zero_count : list (Symbol * Z) := [("a", 0%Z); ("b", 1%Z)].

(** * Properties *)

(** ** The [result] monad *)

Lemma getitem_Ok {A} (l : list A) (i : nat) (x : A) :
  l !! i = Some x -> getitem l i = Ok x.
Proof. unfold getitem. intros ->. reflexivity. Qed.

Lemma getitem_lt {A} (l : list A) (i : nat) :
  i < length l -> exists x, l !! i = Some x /\ getitem l i = Ok x.
Proof.
  intros Hi. destruct (lookup_lt_is_Some_2 l i Hi) as [x Hx].
  exists x. split; [exact Hx | apply getitem_Ok, Hx].
Qed.

Lemma setitem_Ok {A} (l : list A) (i : nat) (x : A) :
  i < length l -> setitem l i x = Ok (<[i := x]> l).
Proof. unfold setitem. intros Hi. destruct (decide (i < length l)); [reflexivity | lia]. Qed.

(** ** Lists updated in place *)

Section ListUpdate.
Context {A : Type}.
Implicit Types (l : list A) (x y : A) (i j : nat).

Lemma insert_head_perm l i x y :
  l !! i = Some y -> y :: <[i := x]> l ≡ₚ x :: l.
Proof.
  revert i. induction l as [|a l IH]; intros [|i] Hi; simplify_eq/=.
  - apply perm_swap.
  - rewrite (perm_swap a y). rewrite (IH _ Hi). apply perm_swap.
Qed.

Lemma insert_cross_perm l i x y :
  i < length l -> x :: <[i := y]> l ≡ₚ y :: <[i := x]> l.
Proof.
  revert i. induction l as [|a l IH]; intros [|i] Hi; simpl in *; try lia.
  - apply perm_swap.
  - rewrite (perm_swap a x). rewrite (IH i) by lia. apply perm_swap.
Qed.

(** Moving the element at [j] into the hole at [i] and the hole to [j]. *)
Lemma insert_swap_perm l i j x y :
  i ≠ j -> i < length l -> l !! j = Some y ->
  <[j := x]> (<[i := y]> l) ≡ₚ <[i := x]> l.
Proof.
  revert i j. induction l as [|a l IH]; intros [|i] [|j] Hij Hi Hj;
    simplify_eq/=; try lia.
  - apply insert_head_perm, Hj.
  - apply insert_cross_perm. lia.
  - f_equiv. apply IH; [congruence | lia | exact Hj].
Qed.

Lemma take_pred_last l x :
  last l = Some x -> l = take (length l - 1) l ++ [x].
Proof.
  intros Hl. destruct (last_Some l x) as [[l' ->] _]; [exact Hl|].
  rewrite length_app. simpl.
  replace (length l' + 1 - 1) with (length l') by lia.
  rewrite take_app_length. reflexivity.
Qed.
End ListUpdate.

(** ** Heap order on an array *)

Section HeapOrder.
Implicit Types (h heap : list Node) (x y p : Node) (s pos c : nat).

Lemma parent_spec c : 0 < c -> c = 2 * parent c + 1 \/ c = 2 * parent c + 2.
Proof.
  intros Hc. unfold parent.
  change (Nat.shiftr (c - 1) 1) with (Nat.div2 (c - 1)).
  rewrite Nat.div2_div.
  pose proof (Nat.div_mod_eq (c - 1) 2) as Hd.
  pose proof (Nat.mod_upper_bound (c - 1) 2) as Hm.
  lia.
Qed.

Lemma parent_lt c : 0 < c -> parent c < c.
Proof. intros Hc. destruct (parent_spec c Hc); lia. Qed.

Lemma parent_left pos : parent (2 * pos + 1) = pos.
Proof. destruct (parent_spec (2 * pos + 1)); lia. Qed.

Lemma parent_right pos : parent (2 * pos + 1 + 1) = pos.
Proof. destruct (parent_spec (2 * pos + 1 + 1)); lia. Qed.

Lemma parent_inv c pos :
  0 < c -> parent c = pos -> c = 2 * pos + 1 \/ c = 2 * pos + 1 + 1.
Proof. intros Hc <-. destruct (parent_spec c Hc); lia. Qed.

Lemma desc_le s pos : desc s pos -> s <= pos.
Proof.
  induction 1 as [|c Hc _ IH]; [lia|].
  pose proof (parent_lt c Hc). lia.
Qed.

Lemma desc_parent s pos : desc s pos -> s < pos -> desc s (parent pos).
Proof. destruct 1; [lia | auto]. Qed.

Lemma desc_parent_le s pos : desc s pos -> s < pos -> s <= parent pos.
Proof. intros Hd Hs. apply desc_le, desc_parent; assumption. Qed.

Lemma desc_root pos : desc 0 pos.
Proof.
  induction pos as [pos IH] using lt_wf_ind.
  destruct pos as [|n]; [constructor|].
  apply desc_child; [lia|]. apply IH, parent_lt. lia.
Qed.

Lemma ordered_from_hole s h : ordered_from (S s) h -> hole_inv s s h.
Proof.
  intros Ho. split; [|lia].
  intros c Hc Hs Hne Hpne. apply Ho; [exact Hc | lia].
Qed.

Lemma hole_inv_insert s pos h x :
  hole_inv s pos (<[pos := x]> h) <-> hole_inv s pos h.
Proof.
  unfold hole_inv, edge_ok. split; intros [H1 H2]; split.
  - intros c Hc Hs Hne Hpne y p Hy Hp.
    apply (H1 c Hc Hs Hne Hpne); rewrite list_lookup_insert_ne; auto.
  - intros Hlt c y p Hc Hpc Hy Hp.
    pose proof (parent_lt pos ltac:(lia)). pose proof (parent_lt c Hc).
    apply (H2 Hlt c y p Hc Hpc); rewrite list_lookup_insert_ne; auto; lia.
  - intros c Hc Hs Hne Hpne y p Hy Hp.
    rewrite list_lookup_insert_ne in Hy by auto.
    rewrite list_lookup_insert_ne in Hp by auto.
    eapply H1; eauto.
  - intros Hlt c y p Hc Hpc Hy Hp.
    pose proof (parent_lt pos ltac:(lia)). pose proof (parent_lt c Hc).
    rewrite list_lookup_insert_ne in Hy by lia.
    rewrite list_lookup_insert_ne in Hp by lia.
    eapply H2; eauto.
Qed.

(** Filling the hole with an entry that fits gives an ordered array. *)
Lemma hole_fill s pos h x :
  pos < length h -> hole_inv s pos h -> above_children x pos h ->
  (s < pos -> forall p, h !! parent pos = Some p -> (freq p <= freq x)%Z) ->
  ordered_from s (<[pos := x]> h).
Proof.
  intros Hpos [H1 H2] Hch Hup c Hc Hs y p Hy Hp.
  pose proof (parent_lt c Hc) as Hlt.
  destruct (decide (c = pos)) as [->|Hne].
  - rewrite list_lookup_insert_eq in Hy by exact Hpos.
    rewrite list_lookup_insert_ne in Hp by lia.
    assert (y = x) as -> by congruence. apply Hup; [lia | exact Hp].
  - rewrite list_lookup_insert_ne in Hy by auto.
    destruct (decide (parent c = pos)) as [Hpc|Hpne].
    + rewrite Hpc in Hp. rewrite list_lookup_insert_eq in Hp by exact Hpos.
      assert (p = x) as -> by congruence. apply (Hch c y Hc Hpc Hy).
    + rewrite list_lookup_insert_ne in Hp by auto.
      eapply H1; eauto.
Qed.

(** One turn of the loop of [_siftdown]: the parent entry moves into the
    hole and the hole moves up. *)
Lemma hole_up s pos h x pv :
  s < pos -> desc s pos -> pos < length h ->
  hole_inv s pos h -> above_children x pos h ->
  h !! parent pos = Some pv -> (freq x < freq pv)%Z ->
  hole_inv s (parent pos) (<[pos := pv]> h) /\
  above_children x (parent pos) (<[pos := pv]> h).
Proof.
  intros Hs Hd Hpos [H1 H2] Hch Hpv Hlt.
  pose proof (parent_lt pos ltac:(lia)) as Hq.
  pose proof (desc_parent_le s pos Hd Hs) as Hsq.
  pose proof (desc_parent s pos Hd Hs) as Hdq.
  set (q := parent pos) in *.
  assert (Hsib : forall c y, 0 < c -> parent c = q -> c <> pos ->
             h !! c = Some y -> (freq pv <= freq y)%Z).
  { intros c y Hc Hpc Hne Hy. apply (H1 c Hc); [lia | exact Hne | lia | exact Hy |].
    rewrite Hpc. exact Hpv. }
  split; [split|].
  - intros c Hc Hsc Hne Hpne y p Hy Hp.
    pose proof (parent_lt c Hc) as Hcl.
    destruct (decide (c = pos)) as [->|Hcp]; [fold q in Hpne; lia|].
    rewrite list_lookup_insert_ne in Hy by auto.
    destruct (decide (parent c = pos)) as [Hpc|Hpcn].
    + rewrite Hpc in Hp. rewrite list_lookup_insert_eq in Hp by exact Hpos.
      assert (p = pv) as -> by congruence.
      apply (H2 Hs c y pv Hc Hpc Hy Hpv).
    + rewrite list_lookup_insert_ne in Hp by auto.
      eapply H1; eauto.
  - intros Hsq' c y g Hc Hpc Hy Hg.
    pose proof (parent_lt q ltac:(lia)) as Hgq.
    rewrite list_lookup_insert_ne in Hg by lia.
    assert (Hgp : (freq g <= freq pv)%Z).
    { apply (H1 q); [lia | | lia | lia | exact Hpv | exact Hg].
      apply desc_parent_le; assumption. }
    destruct (decide (c = pos)) as [->|Hcp].
    + rewrite list_lookup_insert_eq in Hy by exact Hpos.
      assert (y = pv) as -> by congruence. exact Hgp.
    + rewrite list_lookup_insert_ne in Hy by auto.
      pose proof (Hsib c y Hc Hpc Hcp Hy). lia.
  - intros c y Hc Hpc Hy.
    destruct (decide (c = pos)) as [->|Hcp].
    + rewrite list_lookup_insert_eq in Hy by exact Hpos.
      assert (y = pv) as -> by congruence. lia.
    + rewrite list_lookup_insert_ne in Hy by auto.
      pose proof (Hsib c y Hc Hpc Hcp Hy). lia.
Qed.

(** One turn of the loop of [_siftup]: the smaller child moves into the hole
    and the hole moves down. *)
Lemma hole_down s pos h c v :
  desc s pos -> pos < length h -> hole_inv s pos h ->
  0 < c -> parent c = pos -> h !! c = Some v ->
  above_children v pos h ->
  hole_inv s c (<[pos := v]> h).
Proof.
  intros Hd Hpos [H1 H2] Hc Hpc Hv Hmin.
  pose proof (parent_lt c Hc) as Hcl.
  pose proof (desc_le s pos Hd) as Hsp.
  split.
  - intros e He Hse Hne Hpne y p Hy Hp.
    pose proof (parent_lt e He) as Hel.
    destruct (decide (e = pos)) as [Hep|Hep].
    + subst e.
      rewrite list_lookup_insert_eq in Hy by exact Hpos.
      rewrite list_lookup_insert_ne in Hp by lia.
      assert (y = v) as -> by congruence.
      apply (H2 ltac:(lia) c v p Hc Hpc Hv Hp).
    + rewrite list_lookup_insert_ne in Hy by auto.
      destruct (decide (parent e = pos)) as [Hpe|Hpen].
      * rewrite Hpe in Hp. rewrite list_lookup_insert_eq in Hp by exact Hpos.
        assert (p = v) as -> by congruence.
        apply (Hmin e y He Hpe Hy).
      * rewrite list_lookup_insert_ne in Hp by auto.
        apply (H1 e He Hse Hep Hpen y p Hy Hp).
  - intros Hsc e y p He Hpe Hy Hp.
    pose proof (parent_lt e He) as Hel.
    rewrite Hpc in Hp. rewrite list_lookup_insert_eq in Hp by exact Hpos.
    rewrite list_lookup_insert_ne in Hy by lia.
    assert (p = v) as -> by congruence.
    apply (H1 e He); [lia | lia | lia | exact Hy |].
    rewrite Hpe. exact Hv.
Qed.

Lemma is_heap_min h x :
  is_heap h -> h !! 0 = Some x ->
  forall i y, h !! i = Some y -> (freq x <= freq y)%Z.
Proof.
  intros Hh Hx i. induction i as [i IH] using lt_wf_ind. intros y Hy.
  destruct (decide (i = 0)) as [->|Hi]; [simplify_eq; lia|].
  pose proof (parent_lt i ltac:(lia)) as Hlt.
  destruct (lookup_lt_is_Some_2 h (parent i)) as [p Hp].
  { apply lookup_lt_Some in Hy. lia. }
  pose proof (IH _ Hlt p Hp).
  pose proof (Hh i ltac:(lia) ltac:(lia) y p Hy Hp). lia.
Qed.
End HeapOrder.

(** ** [heapq] keeps the entries and the heap order *)

Section HeapqSpec.
Implicit Types (h heap : list Node) (x y : Node) (s pos : nat).

Lemma Node_lt_false x y : Node_lt x y = false -> (freq y <= freq x)%Z.
Proof. unfold Node_lt. intros H. apply Z.ltb_ge, H. Qed.

Lemma Node_lt_true x y : Node_lt x y = true -> (freq x < freq y)%Z.
Proof. unfold Node_lt. intros H. apply Z.ltb_lt, H. Qed.

Lemma _siftdown_loop_S fuel h s pos x :
  heapq._siftdown_loop (S fuel) h s pos x =
  if decide (s < pos) then
    pv ← getitem h (parent pos);
    if Node_lt x pv then
      h1 ← setitem h pos pv;
      heapq._siftdown_loop fuel h1 s (parent pos) x
    else setitem h pos x
  else setitem h pos x.
Proof. reflexivity. Qed.

Lemma _siftup_loop_S fuel h endpos pos childpos :
  heapq._siftup_loop (S fuel) h endpos pos childpos =
  if decide (childpos < endpos) then
    c ← heapq.smaller_child h endpos childpos;
    v ← getitem h c;
    h1 ← setitem h pos v;
    heapq._siftup_loop fuel h1 endpos c (2 * c + 1)
  else mret (h, pos).
Proof. reflexivity. Qed.

Lemma _siftdown_loop_spec fuel : forall h s pos x,
  pos <= fuel -> pos < length h -> desc s pos ->
  exists h', heapq._siftdown_loop fuel h s pos x = Ok h' /\
    length h' = length h /\ h' ≡ₚ <[pos := x]> h /\
    (hole_inv s pos h -> above_children x pos h -> ordered_from s h').
Proof.
  induction fuel as [|fuel IH]; intros h s pos x Hfuel Hpos Hd.
  - simpl. rewrite setitem_Ok by exact Hpos.
    eexists; split; [reflexivity|]. rewrite length_insert.
    repeat split; [reflexivity|]. intros Hi Hc.
    apply hole_fill; auto. lia.
  - rewrite _siftdown_loop_S. destruct (decide (s < pos)) as [Hs|Hs].
    + pose proof (parent_lt pos ltac:(lia)) as Hq.
      destruct (getitem_lt h (parent pos) ltac:(lia)) as (pv & Hpv & ->). mstep.
      destruct (Node_lt x pv) eqn:Hlt.
      * rewrite setitem_Ok by exact Hpos. mstep.
        destruct (IH (<[pos := pv]> h) s (parent pos) x) as (h' & -> & Hlen & Hperm & Hord).
        { lia. } { rewrite length_insert. lia. } { apply desc_parent; assumption. }
        exists h'. split; [reflexivity|]. rewrite length_insert in Hlen.
        split; [exact Hlen|]. split.
        -- rewrite Hperm. apply insert_swap_perm; [lia | exact Hpos | exact Hpv].
        -- intros Hi Hc. apply Node_lt_true in Hlt.
           destruct (hole_up s pos h x pv Hs Hd Hpos Hi Hc Hpv Hlt). auto.
      * rewrite setitem_Ok by exact Hpos.
        eexists; split; [reflexivity|]. rewrite length_insert.
        repeat split; [reflexivity|]. intros Hi Hc.
        apply hole_fill; auto. intros _ p Hp.
        assert (p = pv) as -> by congruence. apply Node_lt_false, Hlt.
    + rewrite setitem_Ok by exact Hpos.
      eexists; split; [reflexivity|]. rewrite length_insert.
      repeat split; [reflexivity|]. intros Hi Hc.
      apply hole_fill; auto. lia.
Qed.

Lemma smaller_child_spec h pos :
  2 * pos + 1 < length h ->
  exists c v, heapq.smaller_child h (length h) (2 * pos + 1) = Ok c /\
    0 < c /\ parent c = pos /\ h !! c = Some v /\ above_children v pos h.
Proof.
  intros Hc. unfold heapq.smaller_child.
  destruct (getitem_lt h (2 * pos + 1) Hc) as (cv & Hcv & Hgc).
  destruct (decide (2 * pos + 1 + 1 < length h)) as [Hr|Hr].
  - destruct (getitem_lt h (2 * pos + 1 + 1) Hr) as (rv & Hrv & Hgr).
    rewrite Hgc, Hgr. mstep. destruct (Node_lt cv rv) eqn:Hlt; mstep.
    + exists (2 * pos + 1), cv. split; [reflexivity|].
      split; [lia|]. split; [apply parent_left|]. split; [exact Hcv|].
      intros c y H0 Hp Hy. apply Node_lt_true in Hlt.
      destruct (parent_inv c pos H0 Hp) as [->| ->].
      * assert (y = cv) as -> by congruence. lia.
      * assert (y = rv) as -> by congruence. lia.
    + exists (2 * pos + 1 + 1), rv. split; [reflexivity|].
      split; [lia|]. split; [apply parent_right|]. split; [exact Hrv|].
      intros c y H0 Hp Hy. apply Node_lt_false in Hlt.
      destruct (parent_inv c pos H0 Hp) as [->| ->].
      * assert (y = cv) as -> by congruence. lia.
      * assert (y = rv) as -> by congruence. lia.
  - exists (2 * pos + 1), cv. split; [reflexivity|].
    split; [lia|]. split; [apply parent_left|]. split; [exact Hcv|].
    intros c y H0 Hp Hy.
    destruct (parent_inv c pos H0 Hp) as [->| ->].
    * assert (y = cv) as -> by congruence. lia.
    * apply lookup_lt_Some in Hy. lia.
Qed.

Lemma _siftup_loop_spec fuel : forall h s pos x endpos,
  endpos = length h -> endpos <= fuel + pos -> pos < endpos -> desc s pos ->
  exists h' pos',
    heapq._siftup_loop fuel h endpos pos (2 * pos + 1) = Ok (h', pos') /\
    length h' = length h /\ pos' < length h /\ desc s pos' /\
    length h <= 2 * pos' + 1 /\
    <[pos' := x]> h' ≡ₚ <[pos := x]> h /\
    (hole_inv s pos h -> hole_inv s pos' h').
Proof.
  induction fuel as [|fuel IH]; intros h s pos x endpos -> Hfuel Hpos Hd; [lia|].
  rewrite _siftup_loop_S. destruct (decide (2 * pos + 1 < length h)) as [Hc|Hc].
  - destruct (smaller_child_spec h pos Hc) as (c & v & -> & H0 & Hp & Hv & Hmin).
    mstep. rewrite (getitem_Ok _ _ _ Hv). mstep.
    rewrite setitem_Ok by exact Hpos. mstep.
    pose proof (parent_lt c H0) as Hcl.
    pose proof (lookup_lt_Some _ _ _ Hv) as Hcn.
    destruct (IH (<[pos := v]> h) s c x (length h))
      as (h' & pos' & -> & Hlen & Hpos' & Hd' & Hleaf & Hperm & Hinv).
    { rewrite length_insert. reflexivity. } { lia. } { exact Hcn. }
    { apply desc_child; [exact H0 | rewrite Hp; exact Hd]. }
    rewrite length_insert in Hlen, Hpos', Hleaf.
    exists h', pos'. split; [reflexivity|]. repeat (split; [assumption|]). split.
    + rewrite Hperm. apply insert_swap_perm; [lia | exact Hpos | exact Hv].
    + intros Hi. apply Hinv. eapply hole_down; eauto.
  - exists h, pos. split; [reflexivity|]. repeat (split; [auto; lia|]). auto.
Qed.

Lemma _siftup_spec h pos :
  pos < length h ->
  exists h', heapq._siftup h pos = Ok h' /\ length h' = length h /\ h' ≡ₚ h /\
    (ordered_from (S pos) h -> ordered_from pos h').
Proof.
  intros Hpos. unfold heapq._siftup.
  destruct (getitem_lt h pos Hpos) as (x & Hx & ->). mstep.
  destruct (_siftup_loop_spec (length h) h pos pos x (length h))
    as (h1 & pos1 & -> & Hlen1 & Hpos1 & Hd1 & Hleaf & Hperm1 & Hinv1);
    [reflexivity | lia | exact Hpos | constructor |].
  mstep. rewrite setitem_Ok by lia. mstep.
  unfold heapq._siftdown.
  rewrite (getitem_Ok _ _ x) by (apply list_lookup_insert_eq; lia). mstep.
  destruct (_siftdown_loop_spec pos1 (<[pos1 := x]> h1) pos pos1 x)
    as (h3 & -> & Hlen3 & Hperm3 & Hord3);
    [lia | rewrite length_insert; lia | exact Hd1 |].
  rewrite length_insert in Hlen3. rewrite list_insert_insert_eq in Hperm3.
  exists h3. split; [reflexivity|]. split; [lia|]. split.
  - rewrite Hperm3, Hperm1. rewrite list_insert_id by exact Hx. reflexivity.
  - intros Ho. apply Hord3.
    + apply hole_inv_insert, Hinv1, ordered_from_hole, Ho.
    + intros c y H0 Hp Hy. apply lookup_lt_Some in Hy.
      rewrite length_insert in Hy.
      destruct (parent_inv c pos1 H0 Hp); lia.
Qed.

Lemma heappush_spec h x :
  exists h', heapq.heappush h x = Ok h' /\ h' ≡ₚ x :: h /\
    (is_heap h -> is_heap h').
Proof.
  unfold heapq.heappush, heapq._siftdown.
  assert (Hn : length (h ++ [x]) - 1 = length h) by (rewrite length_app; simpl; lia).
  rewrite Hn.
  assert (Hx : (h ++ [x]) !! length h = Some x).
  { rewrite lookup_app_r by lia. rewrite Nat.sub_diag. reflexivity. }
  rewrite (getitem_Ok _ _ _ Hx). mstep.
  destruct (_siftdown_loop_spec (length h) (h ++ [x]) 0 (length h) x)
    as (h' & -> & Hlen & Hperm & Hord);
    [lia | rewrite length_app; simpl; lia | apply desc_root |].
  exists h'. split; [reflexivity|]. split.
  - rewrite Hperm. rewrite list_insert_id by exact Hx.
    symmetry. apply Permutation_cons_append.
  - intros Hh. apply Hord.
    + split.
      * intros c Hc _ Hne Hpne y p Hy Hp.
        pose proof (lookup_lt_Some _ _ _ Hy) as Hlt.
        rewrite length_app in Hlt. simpl in Hlt.
        pose proof (parent_lt c Hc).
        rewrite lookup_app_l in Hy by lia. rewrite lookup_app_l in Hp by lia.
        apply (Hh c Hc ltac:(lia) y p Hy Hp).
      * intros _ c y p Hc Hpc Hy _.
        apply lookup_lt_Some in Hy. rewrite length_app in Hy. simpl in Hy.
        pose proof (parent_lt c Hc). lia.
    + intros c y Hc Hpc Hy.
      apply lookup_lt_Some in Hy. rewrite length_app in Hy. simpl in Hy.
      pose proof (parent_lt c Hc). lia.
Qed.

Lemma heappop_spec h :
  h <> [] ->
  exists x h', heapq.heappop h = Ok (x, h') /\ h ≡ₚ x :: h' /\
    (is_heap h -> is_heap h' /\ forall y, y ∈ h -> (freq x <= freq y)%Z).
Proof.
  intros Hne. unfold heapq.heappop.
  destruct (last h) as [lastelt|] eqn:Hlast; [|apply last_None in Hlast; done].
  pose proof (take_pred_last h lastelt Hlast) as Hsplit.
  destruct (take (length h - 1) h) as [|r t] eqn:Htake.
  - simpl in Hsplit. exists lastelt, []. split; [reflexivity|].
    rewrite Hsplit. split; [reflexivity|]. intros _. split.
    + intros c _ _ y p Hy. discriminate.
    + intros y Hy. apply list_elem_of_singleton in Hy as ->. lia.
  - change (getitem (r :: t) 0) with (Ok (A:=Node) r). mstep.
    rewrite setitem_Ok by (simpl; lia). mstep.
    change (<[0 := lastelt]> (r :: t)) with (lastelt :: t).
    destruct (_siftup_spec (lastelt :: t) 0) as (h' & -> & Hlen & Hperm & Hord);
      [simpl; lia|].
    exists r, h'. split; [reflexivity|]. split.
    + rewrite Hsplit, Hperm. simpl.
      f_equiv. symmetry. apply Permutation_cons_append.
    + intros Hh. split.
      * apply Hord. intros c Hc Hp y p Hy Hpv.
        pose proof (parent_lt c Hc) as Hcl.
        destruct c as [|c']; [lia|].
        destruct (parent (S c')) as [|q] eqn:Hq; [lia|].
        simpl in Hy, Hpv.
        apply (Hh (S c') Hc ltac:(lia) y p).
        -- rewrite Hsplit. simpl. apply lookup_app_l_Some, Hy.
        -- rewrite Hq, Hsplit. simpl. apply lookup_app_l_Some, Hpv.
      * intros y Hy. apply list_elem_of_lookup in Hy as [i Hi].
        apply (is_heap_min h r Hh) with i; [|exact Hi].
        rewrite Hsplit. reflexivity.
Qed.

Lemma heapify_loop_spec k : forall h,
  k <= length h ->
  exists h', heapq.heapify_loop (reverse (seq 0 k)) h = Ok h' /\
    length h' = length h /\ h' ≡ₚ h /\ (ordered_from k h -> is_heap h').
Proof.
  induction k as [|k IH]; intros h Hk.
  - exists h. repeat split; auto.
  - rewrite seq_S, reverse_app. simpl.
    destruct (_siftup_spec h k) as (h1 & -> & Hlen1 & Hperm1 & Hord1); [lia|].
    mstep. destruct (IH h1) as (h' & -> & Hlen & Hperm & Hord); [lia|].
    exists h'. split; [reflexivity|]. split; [lia|]. split.
    + rewrite Hperm. exact Hperm1.
    + intros Ho. auto.
Qed.

Lemma heapify_spec h :
  exists h', heapq.heapify h = Ok h' /\ h' ≡ₚ h /\ is_heap h'.
Proof.
  unfold heapq.heapify.
  pose proof (Nat.div_mod_eq (length h) 2) as Hd.
  pose proof (Nat.mod_upper_bound (length h) 2 ltac:(lia)) as Hm.
  destruct (heapify_loop_spec (length h / 2) h) as (h' & -> & _ & Hperm & Hord);
    [lia|].
  exists h'. split; [reflexivity|]. split; [exact Hperm|].
  apply Hord. intros c Hc Hp y p Hy _.
  apply lookup_lt_Some in Hy. destruct (parent_spec c Hc); lia.
Qed.
End HeapqSpec.

(** ** The loop of [build_huffman_tree] is the greedy merge *)

Section Greedy.
Implicit Types (q heap final : list Node) (trace steps : list MergeStep)
  (freq_map : list (Symbol * Z)).

Lemma build_loop_S fuel heap steps :
  build_loop (S fuel) heap steps =
  if decide (1 < length heap) then
    '(a, h1) ← heapq.heappop heap;
    '(b, h2) ← heapq.heappop h1;
    h3 ← heapq.heappush h2 (merge a b);
    build_loop fuel h3 (steps ++ [(a, b, (freq a + freq b)%Z)])
  else mret (heap, steps).
Proof. reflexivity. Qed.

Lemma lowest_perm a q q0 : q ≡ₚ q0 -> lowest a q -> lowest a q0.
Proof. intros Hp Hl y Hy. apply Hl. rewrite Hp. exact Hy. Qed.

Lemma greedy_step_perm q q0 trace st :
  q ≡ₚ q0 -> greedy_step (q, trace) st -> greedy_step (q0, trace) st.
Proof.
  intros Hp Hs. inversion Hs as [? q1 q2 q' a b ? Hlen Ha Hla Hb Hlb Hq']; subst.
  econstructor; eauto.
  - rewrite <- Hp. exact Hlen.
  - rewrite <- Hp. exact Ha.
  - eapply lowest_perm; eauto.
Qed.

Lemma rtc_greedy_perm q q0 trace st :
  q ≡ₚ q0 -> length st.1 <= 1 ->
  rtc greedy_step (q, trace) st -> rtc greedy_step (q0, trace) st.
Proof.
  intros Hp Hlen Hr. inversion Hr as [|? st1 ? Hs Hr']; subst.
  - simpl in Hlen. destruct q as [|x [|y q]]; simpl in Hlen; try lia.
    + apply Permutation_nil in Hp as ->. apply rtc_refl.
    + apply Permutation_singleton_l in Hp as ->. apply rtc_refl.
  - eapply rtc_l; [|exact Hr']. eapply greedy_step_perm; eauto.
Qed.

Lemma build_loop_spec fuel : forall heap steps,
  length heap <= fuel -> is_heap heap ->
  exists final trace,
    build_loop fuel heap steps = Ok (final, trace) /\
    rtc greedy_step (heap, steps) (final, trace) /\ length final <= 1.
Proof.
  induction fuel as [|fuel IH]; intros heap steps Hfuel Hheap.
  - exists heap, steps. split; [reflexivity|]. split; [apply rtc_refl | lia].
  - rewrite build_loop_S. destruct (decide (1 < length heap)) as [Hlen|Hlen].
    + destruct (heappop_spec heap) as (a & h1 & -> & Hp1 & Hh1).
      { intros ->. simpl in Hlen. lia. }
      destruct (Hh1 Hheap) as [Hheap1 Hlow1]. mstep.
      pose proof (Permutation_length Hp1) as Hl1. simpl in Hl1.
      destruct (heappop_spec h1) as (b & h2 & -> & Hp2 & Hh2).
      { intros ->. simpl in Hl1. lia. }
      destruct (Hh2 Hheap1) as [Hheap2 Hlow2]. mstep.
      pose proof (Permutation_length Hp2) as Hl2. simpl in Hl2.
      destruct (heappush_spec h2 (merge a b)) as (h3 & -> & Hp3 & Hh3). mstep.
      pose proof (Permutation_length Hp3) as Hl3. simpl in Hl3.
      destruct (IH h3 (steps ++ [(a, b, (freq a + freq b)%Z)]))
        as (final & trace & -> & Hrtc & Hfin); [lia | auto |].
      exists final, trace. split; [reflexivity|]. split; [|exact Hfin].
      eapply rtc_l; [|exact Hrtc]. econstructor; eauto.
    + exists heap, steps. split; [reflexivity|]. split; [apply rtc_refl | lia].
Qed.

Lemma map_leaf_of freq_map :
  map (fun '(ch, freq) => Node_init (Some ch) freq) freq_map = map leaf_of freq_map.
Proof. apply map_ext. intros [ch f]. reflexivity. Qed.

Lemma build_huffman_tree_greedy freq_map :
  exists root steps,
    build_huffman_tree freq_map = Ok (root, steps) /\
    greedy_run freq_map root steps.
Proof.
  unfold build_huffman_tree. rewrite map_leaf_of.
  destruct (heapify_spec (map leaf_of freq_map)) as (h0 & -> & Hp0 & Hh0). mstep.
  destruct (build_loop_spec (length h0) h0 []) as (final & trace & -> & Hrtc & Hfin);
    [lia | exact Hh0 |].
  mstep. exists (head final), trace. split; [reflexivity|].
  exists final. split; [|split; [exact Hfin | reflexivity]].
  eapply rtc_greedy_perm; eauto.
Qed.

Lemma sum_freq_app l1 l2 : sum_freq (l1 ++ l2) = (sum_freq l1 + sum_freq l2)%Z.
Proof. induction l1 as [|e l1 IH]; simpl; [reflexivity | rewrite IH; lia]. Qed.

Lemma sum_freq_perm l1 l2 : l1 ≡ₚ l2 -> sum_freq l1 = sum_freq l2.
Proof. induction 1; simpl; lia. Qed.

Lemma flat_map_leaves_init freq_map :
  flat_map leaves (map leaf_of freq_map) = freq_map.
Proof.
  induction freq_map as [|[ch f] l IH]; simpl; [reflexivity|].
  rewrite IH. reflexivity.
Qed.

Lemma run_inv_init freq_map : run_inv freq_map (map leaf_of freq_map, []).
Proof.
  unfold run_inv. simpl. repeat split.
  - apply Forall_forall. intros n Hn. apply list_elem_of_fmap in Hn as ([ch f] & -> & _).
    constructor.
  - apply Forall_forall. intros n Hn. apply list_elem_of_fmap in Hn as ([ch f] & -> & _).
    simpl. lia.
  - rewrite flat_map_leaves_init. reflexivity.
  - rewrite length_map. lia.
  - destruct freq_map; simpl; congruence.
  - constructor.
Qed.

Lemma run_inv_step freq_map st st' :
  greedy_step st st' -> run_inv freq_map st -> run_inv freq_map st'.
Proof.
  intros Hs (Hfull & Hw & Hleaves & Hlen & Hne & Htr).
  inversion Hs as [q q1 q2 q' a b trace Hq Ha Hla Hb Hlb Hq']; subst.
  simpl in *.
  assert (Hq2 : q ≡ₚ a :: b :: q2) by (rewrite Ha, Hb; reflexivity).
  rewrite Hq2 in Hfull, Hw, Hleaves.
  apply Forall_cons in Hfull as [Hfa Hfull]. apply Forall_cons in Hfull as [Hfb Hfull].
  apply Forall_cons in Hw as [Hwa Hw]. apply Forall_cons in Hw as [Hwb Hw].
  unfold run_inv. simpl. repeat split.
  - rewrite Hq'. constructor; [constructor; assumption | assumption].
  - rewrite Hq'. constructor; [|assumption].
    simpl. rewrite sum_freq_app. lia.
  - rewrite Hq'. rewrite <- Hleaves. simpl. rewrite <- !app_assoc. reflexivity.
  - rewrite Hq'. rewrite length_app. simpl.
    apply Permutation_length in Hq2. simpl in Hq2. lia.
  - intros _ ->. apply Permutation_nil_cons in Hq'. exact Hq'.
  - apply Forall_app. split; [exact Htr|]. constructor; [reflexivity | constructor].
Qed.

Lemma run_inv_rtc freq_map st st' :
  rtc greedy_step st st' -> run_inv freq_map st -> run_inv freq_map st'.
Proof. induction 1; eauto using run_inv_step. Qed.

Lemma greedy_run_inv freq_map root trace :
  greedy_run freq_map root trace ->
  exists final, run_inv freq_map (final, trace) /\ length final <= 1 /\
    root = head final.
Proof.
  intros (final & Hrtc & Hlen & Hroot). exists final. split; [|auto].
  eapply run_inv_rtc; [exact Hrtc | apply run_inv_init].
Qed.

Lemma greedy_run_root freq_map root trace :
  greedy_run freq_map root trace -> freq_map <> [] ->
  exists r, root = Some r /\ full_tree r /\ leaves r ≡ₚ freq_map /\
    freq r = sum_freq freq_map /\ length trace = length freq_map - 1.
Proof.
  intros Hrun Hne.
  destruct (greedy_run_inv _ _ _ Hrun)
    as (final & (Hfull & Hw & Hleaves & Hlen & Hnonempty & _) & Hfin & ->).
  simpl in *. destruct final as [|r [|r' final]]; simpl in *; try lia.
  - destruct (Hnonempty Hne eq_refl).
  - exists r. split; [reflexivity|].
    apply Forall_cons in Hfull as [Hfr _]. apply Forall_cons in Hw as [Hwr _].
    rewrite app_nil_r in Hleaves.
    split; [exact Hfr|]. split; [exact Hleaves|]. split; [|lia].
    rewrite Hwr. apply sum_freq_perm, Hleaves.
Qed.

Lemma greedy_run_trace freq_map root trace :
  greedy_run freq_map root trace ->
  Forall (fun step : MergeStep => step.2 = (freq step.1.1 + freq step.1.2)%Z) trace.
Proof.
  intros Hrun.
  destruct (greedy_run_inv _ _ _ Hrun) as (final & (_ & _ & _ & _ & _ & Htr) & _).
  exact Htr.
Qed.
End Greedy.

(** ** Strings of bits *)

Section Bits.
Implicit Types (a b c p q : string).

Lemma string_app_assoc a b c : (a +:+ b) +:+ c = a +:+ (b +:+ c).
Proof. induction a as [|x a IH]; [reflexivity|]. exact (f_equal (String x) IH). Qed.

Lemma string_app_nil_r a : a +:+ "" = a.
Proof. induction a as [|x a IH]; [reflexivity|]. exact (f_equal (String x) IH). Qed.

Lemma concat_cons a (parts : list string) :
  String.concat "" (a :: parts) = a +:+ String.concat "" parts.
Proof.
  destruct parts as [|b parts]; [symmetry; apply string_app_nil_r|].
  reflexivity.
Qed.

(** [is_prefix] is what [String.prefix] decides. *)
Lemma prefix_is_prefix a : forall b, String.prefix a b = true <-> is_prefix a b.
Proof.
  induction a as [|x a IH]; intros b.
  - split; [intros _; exists b; reflexivity | destruct b; reflexivity].
  - destruct b as [|y b]; simpl.
    + split; [discriminate | intros [s Hs]; discriminate].
    + destruct (Ascii.ascii_dec x y) as [->|Hne].
      * rewrite IH. split; intros [s Hs]; exists s.
        -- rewrite Hs. reflexivity.
        -- injection Hs as Hs. exact Hs.
      * split; [discriminate | intros [s Hs]; injection Hs as Hxy _; congruence].
Qed.

Lemma fork_not_prefix p a b :
  ~ is_prefix ((p +:+ "0") +:+ a) ((p +:+ "1") +:+ b) /\
  ~ is_prefix ((p +:+ "1") +:+ a) ((p +:+ "0") +:+ b).
Proof.
  split; intros [s Hs]; rewrite !string_app_assoc in Hs;
    apply (inj (String.app p)) in Hs; discriminate.
Qed.
End Bits.

(** ** [assign_codes] records the path to each symbol *)

Section Codes.
Implicit Types (n root : Node) (p prefix c : string) (s ch : Symbol)
  (m codes : gmap Symbol string) (l : list (Symbol * string)).

Lemma assign_codes_node_paths n : forall p m,
  assign_codes_node n p m = record_all m (paths n p).
Proof.
  induction n as [ch f l r IHl IHr] using Node_ind'. intros p m.
  unfold record_all in *. simpl. rewrite !foldl_app.
  assert (Hch : foldl (fun m kv => <[kv.1 := kv.2]> m) m
                  match ch with Some c => [(c, p)] | None => [] end =
                match ch with Some c => <[c := p]> m | None => m end)
    by (destruct ch; reflexivity).
  rewrite Hch.
  destruct l as [l|], r as [r|]; simpl in *; rewrite ?IHr, ?IHl; reflexivity.
Qed.

Lemma paths_keys n : forall p, (paths n p).*1 = (leaves n).*1.
Proof.
  induction n as [ch f l r IHl IHr] using Node_ind'. intros p.
  simpl. rewrite !fmap_app. f_equal; [destruct ch; reflexivity|]. f_equal.
  - destruct l; [apply IHl | reflexivity].
  - destruct r; [apply IHr | reflexivity].
Qed.

Lemma record_all_lookup l : forall m s c,
  NoDup l.*1 ->
  record_all m l !! s = Some c <->
  (s, c) ∈ l \/ ((s ∉ l.*1) /\ m !! s = Some c).
Proof.
  induction l as [|[k v] l IH]; intros m s c Hnd.
  - simpl. split; [intros H; right; split; [apply not_elem_of_nil | exact H]|].
    intros [H|[_ H]]; [apply elem_of_nil in H; done | exact H].
  - rewrite fmap_cons in Hnd. apply NoDup_cons in Hnd as [Hk Hnd]. simpl in Hk.
    unfold record_all. simpl.
    fold (record_all (<[k := v]> m) l). rewrite (IH _ _ _ Hnd).
    rewrite elem_of_cons, not_elem_of_cons.
    destruct (decide (s = k)) as [->|Hsk].
    + rewrite lookup_insert_eq. split.
      * intros [H|[_ H]]; [|left; left; congruence].
        exfalso. apply Hk. apply list_elem_of_fmap. exists (k, c). auto.
      * intros [[H|H]|[[H _] _]]; [right; split; [exact Hk | congruence] | | done].
        exfalso. apply Hk. apply list_elem_of_fmap. exists (k, c). auto.
    + rewrite lookup_insert_ne by auto. split.
      * intros [H|[H1 H2]]; [left; right; exact H | right; auto].
      * intros [[H|H]|[[_ H1] H2]]; [congruence | left; exact H | right; auto].
Qed.

Lemma record_all_dom l : forall m,
  dom (record_all m l) = list_to_set l.*1 ∪ dom m.
Proof.
  induction l as [|[k v] l IH]; intros m.
  - simpl. symmetry. apply (left_id_L ∅ (∪)).
  - unfold record_all. simpl. fold (record_all (<[k := v]> m) l).
    rewrite IH, dom_insert_L. apply set_eq. intros x.
    rewrite !elem_of_union. tauto.
Qed.

Lemma paths_shift n : forall p,
  paths n p = map (fun kv => (kv.1, p +:+ kv.2)) (paths n "").
Proof.
  induction n as [ch f l r IHl IHr] using Node_ind'. intros p.
  simpl. rewrite !map_app. f_equal; [|f_equal].
  - destruct ch; simpl; [rewrite string_app_nil_r|]; reflexivity.
  - destruct l as [l|]; [|reflexivity]. simpl in IHl.
    rewrite (IHl (p +:+ "0")), (IHl ("" +:+ "0")), map_map.
    apply map_ext. intros [k v]. simpl. rewrite string_app_assoc. reflexivity.
  - destruct r as [r|]; [|reflexivity]. simpl in IHr.
    rewrite (IHr (p +:+ "1")), (IHr ("" +:+ "1")), map_map.
    apply map_ext. intros [k v]. simpl. rewrite string_app_assoc. reflexivity.
Qed.

Lemma paths_elem n p s c :
  (s, c) ∈ paths n p <-> exists q, c = p +:+ q /\ (s, q) ∈ paths n "".
Proof.
  rewrite (paths_shift n p), list_elem_of_fmap. split.
  - intros ([k q] & Heq & Hin). simpl in Heq. exists q. split; congruence.
  - intros (q & -> & Hin). exists (s, q). auto.
Qed.

Lemma paths_prefix_free n :
  full_tree n -> forall p s1 c1 s2 c2,
  (s1, c1) ∈ paths n p -> (s2, c2) ∈ paths n p -> s1 <> s2 -> ~ is_prefix c1 c2.
Proof.
  induction 1 as [ch f|f l r Hl IHl Hr IHr]; intros p s1 c1 s2 c2 H1 H2 Hne; simpl in *.
  - apply list_elem_of_singleton in H1, H2. congruence.
  - apply elem_of_app in H1 as [H1|H1]; apply elem_of_app in H2 as [H2|H2].
    + eapply IHl; eauto.
    + apply paths_elem in H1 as (q1 & -> & _). apply paths_elem in H2 as (q2 & -> & _).
      apply fork_not_prefix.
    + apply paths_elem in H1 as (q1 & -> & _). apply paths_elem in H2 as (q2 & -> & _).
      apply fork_not_prefix.
    + eapply IHr; eauto.
Qed.
End Codes.

(** ** Encoding and decoding *)

Section EncodeDecode.
Implicit Types (root n : Node) (codes : gmap Symbol string) (message : list Symbol)
  (s : Symbol) (q rest bits : string).

Lemma encode_parts_spec codes message :
  encode_parts codes message =
  Ok (map (fun s => codes !!! s) (filter (fun s => s ∈ dom codes) message)).
Proof.
  induction message as [|ch message IH]; [reflexivity|].
  simpl. unfold codes_contains, codes_getitem.
  destruct (decide (ch ∈ dom codes)) as [Hin|Hout].
  - rewrite bool_decide_eq_true_2 by exact Hin.
    rewrite filter_cons_True by exact Hin.
    destruct (proj1 (elem_of_dom codes ch) Hin) as [code Hcode].
    rewrite Hcode, IH. mstep. simpl.
    rewrite (lookup_total_correct _ _ _ Hcode). reflexivity.
  - rewrite bool_decide_eq_false_2 by exact Hout.
    rewrite filter_cons_False by exact Hout. exact IH.
Qed.

Lemma encode_spec message codes :
  encode message codes = Ok (encode_skipping message codes).
Proof. unfold encode. rewrite encode_parts_spec. reflexivity. Qed.

Lemma encode_skipping_cons_in s c message codes :
  codes !! s = Some c ->
  encode_skipping (s :: message) codes = c +:+ encode_skipping message codes.
Proof.
  intros Hc. unfold encode_skipping.
  rewrite filter_cons_True by (apply elem_of_dom; eauto).
  simpl map. rewrite concat_cons, (lookup_total_correct _ _ _ Hc). reflexivity.
Qed.

Lemma encode_skipping_cons_out s message codes :
  codes !! s = None ->
  encode_skipping (s :: message) codes = encode_skipping message codes.
Proof.
  intros Hc. unfold encode_skipping.
  rewrite filter_cons_False; [reflexivity|].
  rewrite elem_of_dom, Hc. apply is_Some_None.
Qed.

Lemma decode_walk_step root n bit bits c :
  child n bit = Some c ->
  decode_walk root n (String bit bits) = enter root c bits.
Proof. intros Hc. simpl. rewrite Hc. reflexivity. Qed.

Lemma enter_path root n :
  full_tree n -> forall s q rest,
  (s, q) ∈ paths n "" -> enter root n (q +:+ rest) = s :: decode_walk root root rest.
Proof.
  induction 1 as [ch f|f l r Hl IHl Hr IHr]; intros s q rest Hin.
  - apply list_elem_of_singleton in Hin. injection Hin as -> ->. reflexivity.
  - simpl in Hin. unfold enter. simpl char.
    apply elem_of_app in Hin as [Hin|Hin];
      apply paths_elem in Hin as (q' & -> & Hin); rewrite string_app_assoc.
    + rewrite (decode_walk_step root _ "0" (q' +:+ rest) l) by reflexivity. auto.
    + rewrite (decode_walk_step root _ "1" (q' +:+ rest) r) by reflexivity. auto.
Qed.

Lemma full_tree_inner root :
  full_tree root -> 2 <= length (leaves root) -> char root = None.
Proof. destruct 1; simpl; [lia | reflexivity]. Qed.

Lemma decode_encode root codes :
  full_tree root -> char root = None ->
  (forall s c, codes !! s = Some c <-> (s, c) ∈ paths root "") ->
  forall message,
    decode_walk root root (encode_skipping message codes) =
    filter (fun s => s ∈ dom codes) message.
Proof.
  intros Hfull Hinner Hcodes message.
  induction message as [|s message IH]; [reflexivity|].
  destruct (codes !! s) as [c|] eqn:Hc.
  - rewrite (encode_skipping_cons_in _ _ _ _ Hc).
    rewrite filter_cons_True by (apply elem_of_dom; eauto).
    rewrite <- IH. apply Hcodes in Hc.
    pose proof (enter_path root root Hfull s c (encode_skipping message codes) Hc) as He.
    unfold enter in He. rewrite Hinner in He. exact He.
  - rewrite (encode_skipping_cons_out _ _ _ Hc).
    rewrite filter_cons_False; [exact IH|].
    rewrite elem_of_dom, Hc. apply is_Some_None.
Qed.
End EncodeDecode.

(** ** From a frequency table to its code table *)

Section Pipeline.
Implicit Types (freq_map : list (Symbol * Z)) (r : Node) (s : Symbol) (c : string).

Lemma assign_codes_lookup r s c :
  NoDup (leaves r).*1 ->
  assign_codes (Some r) "" None !! s = Some c <-> (s, c) ∈ paths r "".
Proof.
  intros Hnd. unfold assign_codes. simpl.
  rewrite assign_codes_node_paths, record_all_lookup
    by (rewrite paths_keys; exact Hnd).
  rewrite lookup_empty. split; [intros [H|[_ H]]; [exact H | discriminate] | auto].
Qed.

Lemma assign_codes_dom r :
  dom (assign_codes (Some r) "" None) = list_to_set (leaves r).*1.
Proof.
  unfold assign_codes. simpl.
  rewrite assign_codes_node_paths, record_all_dom, paths_keys, dom_empty_L.
  apply (right_id_L ∅ (∪)).
Qed.

Lemma assign_codes_prefix_free r :
  full_tree r -> NoDup (leaves r).*1 ->
  prefix_free (assign_codes (Some r) "" None).
Proof.
  intros Hfull Hnd s1 s2 c1 c2 Hne H1 H2.
  apply assign_codes_lookup in H1, H2; try exact Hnd.
  eapply paths_prefix_free; eauto.
Qed.

Lemma build_huffman_tree_root freq_map :
  freq_map <> [] ->
  exists r steps,
    build_huffman_tree freq_map = Ok (Some r, steps) /\
    full_tree r /\ leaves r ≡ₚ freq_map /\ freq r = sum_freq freq_map /\
    length steps = length freq_map - 1.
Proof.
  intros Hne.
  destruct (build_huffman_tree_greedy freq_map) as (root & steps & Hb & Hrun).
  destruct (greedy_run_root _ _ _ Hrun Hne) as (r & -> & Hfull & Hl & Hw & Hlen).
  exists r, steps. auto.
Qed.

End Pipeline.

(** ** The table that [animate_frequency_count] builds *)

Section FrequencyCount.
Implicit Types (d freq_data : list (Symbol * Z)) (ch : Symbol).

Lemma dict_incr_keys d ch :
  ch ∈ d.*1 -> exists d', dict_incr d ch = Ok d' /\ d'.*1 = d.*1.
Proof.
  induction d as [|[k v] d IH]; intros Hin.
  - apply elem_of_nil in Hin. destruct Hin.
  - simpl. destruct (decide (k = ch)) as [->|Hne].
    + eexists. split; reflexivity.
    + rewrite fmap_cons in Hin. apply elem_of_cons in Hin as [Heq|Hin];
        [simpl in Heq; congruence|].
      destruct (IH Hin) as (d' & -> & Hkeys). mstep.
      eexists. split; [reflexivity|]. rewrite !fmap_cons, Hkeys. reflexivity.
Qed.

Lemma count_steps_keys (text_to_process : list Symbol) : forall freq_data,
  exists freq_data',
    count_steps text_to_process freq_data = Ok freq_data' /\
    freq_data'.*1 = freq_data.*1.
Proof.
  induction text_to_process as [|ch rest IH]; intros freq_data.
  - exists freq_data. split; reflexivity.
  - simpl. unfold dict_contains.
    destruct (decide (ch ∈ freq_data.*1)) as [Hin|Hout].
    + rewrite bool_decide_eq_true_2 by exact Hin.
      destruct (dict_incr_keys freq_data ch Hin) as (d' & -> & Hkeys). mstep.
      destruct (IH d') as (d'' & -> & Hkeys'). exists d''.
      split; [reflexivity | congruence].
    + rewrite bool_decide_eq_false_2 by exact Hout. mstep. apply IH.
Qed.

(** Whatever the text, the table has the 26 letters as keys: a letter that
    does not occur in the text is passed on with the count 0. *)
Lemma animate_frequency_count_keys (text : string) :
  exists freq_data,
    animate_frequency_count text = Ok freq_data /\
    freq_data.*1 = map chr (seq 97 26).
Proof.
  unfold animate_frequency_count.
  destruct (count_steps_keys (chars (lower text)) (map (fun i => (chr i, 0%Z)) (seq 97 26)))
    as (freq_data & -> & Hkeys).
  exists freq_data. split; [reflexivity|]. rewrite Hkeys. reflexivity.
Qed.

Example animate_frequency_count_aaaa :
  exists freq_data,
    animate_frequency_count "aaaa" = Ok freq_data /\
    length freq_data = 26 /\
    freq_data !! 0 = Some ("a", 4%Z) /\ freq_data !! 1 = Some ("b", 0%Z).
Proof. eexists. split; [vm_compute; reflexivity|]. repeat split. Qed.
End FrequencyCount.

(** ** The scenario of the specification *)

(** The six-symbol table merges 5+9, 12+13, 14+16, 25+30 and 45+55, and [f]
    gets a code of one bit. *)
Example scenario_run :
  exists root steps,
    build_huffman_tree scenario = Ok (root, steps) /\
    map (fun step : MergeStep => (freq step.1.1, freq step.1.2, step.2)) steps =
      [(5, 9, 14); (12, 13, 25); (14, 16, 30); (25, 30, 55); (45, 55, 100)]%Z /\
    map_to_list (assign_codes root "" None) ≡ₚ
      [("a", "1100"); ("b", "1101"); ("c", "100"); ("d", "101"); ("e", "111");
       ("f", "0")].
Proof.
  eexists _, _. split; [vm_compute; reflexivity|]. split; [reflexivity|].
  vm_compute. apply (bool_decide_unpack _). vm_compute. exact I.
Qed.

(** ** The loop counters are large enough

    Each [while] loop runs on a counter; with a counter at least as large as
    the one the model starts it with, the outcome is the same, so the counter
    never cuts a loop short. *)

Section Counters.
Implicit Types (h heap : list Node) (x : Node) (s pos : nat).

Lemma _siftdown_loop_fuel fuel1 : forall fuel2 h s pos x,
  pos <= fuel1 -> pos <= fuel2 ->
  heapq._siftdown_loop fuel1 h s pos x = heapq._siftdown_loop fuel2 h s pos x.
Proof.
  induction fuel1 as [|fuel1 IH]; intros [|fuel2] h s pos x H1 H2.
  - reflexivity.
  - rewrite _siftdown_loop_S. destruct (decide (s < pos)); [lia | reflexivity].
  - rewrite _siftdown_loop_S. destruct (decide (s < pos)); [lia | reflexivity].
  - rewrite !_siftdown_loop_S. destruct (decide (s < pos)) as [Hs|]; [|reflexivity].
    pose proof (parent_lt pos ltac:(lia)).
    destruct (getitem h (parent pos)) as [pv|]; mstep; [|reflexivity].
    destruct (Node_lt x pv); [|reflexivity].
    destruct (setitem h pos pv) as [h1|]; mstep; [|reflexivity].
    apply IH; lia.
Qed.

Lemma smaller_child_ge h endpos childpos c :
  heapq.smaller_child h endpos childpos = Ok c -> childpos <= c.
Proof.
  unfold heapq.smaller_child. destruct (decide (childpos + 1 < endpos)).
  - destruct (getitem h childpos) as [cv|]; mstep; [|discriminate].
    destruct (getitem h (childpos + 1)) as [rv|]; mstep; [|discriminate].
    destruct (negb (Node_lt cv rv)); intros [= <-]; lia.
  - intros [= <-]. lia.
Qed.

Lemma _siftup_loop_fuel fuel1 : forall fuel2 h endpos pos childpos,
  endpos <= fuel1 + childpos -> endpos <= fuel2 + childpos ->
  heapq._siftup_loop fuel1 h endpos pos childpos =
  heapq._siftup_loop fuel2 h endpos pos childpos.
Proof.
  induction fuel1 as [|fuel1 IH]; intros [|fuel2] h endpos pos childpos H1 H2.
  - reflexivity.
  - rewrite _siftup_loop_S. destruct (decide (childpos < endpos)); [lia | reflexivity].
  - rewrite _siftup_loop_S. destruct (decide (childpos < endpos)); [lia | reflexivity].
  - rewrite !_siftup_loop_S. destruct (decide (childpos < endpos)); [|reflexivity].
    destruct (heapq.smaller_child h endpos childpos) as [c|] eqn:Hc; mstep;
      [|reflexivity].
    apply smaller_child_ge in Hc.
    destruct (getitem h c) as [v|]; mstep; [|reflexivity].
    destruct (setitem h pos v) as [h1|]; mstep; [|reflexivity].
    apply IH; lia.
Qed.

Lemma build_loop_fuel fuel1 : forall fuel2 heap steps,
  length heap <= fuel1 -> length heap <= fuel2 ->
  build_loop fuel1 heap steps = build_loop fuel2 heap steps.
Proof.
  induction fuel1 as [|fuel1 IH]; intros [|fuel2] heap steps H1 H2.
  - reflexivity.
  - rewrite build_loop_S. destruct (decide (1 < length heap)); [lia | reflexivity].
  - rewrite build_loop_S. destruct (decide (1 < length heap)); [lia | reflexivity].
  - rewrite !build_loop_S. destruct (decide (1 < length heap)) as [Hlen|]; [|reflexivity].
    destruct (heappop_spec heap) as (a & h1 & -> & Hp1 & _).
    { intros ->. simpl in Hlen. lia. }
    apply Permutation_length in Hp1. simpl in Hp1. mstep.
    destruct (heappop_spec h1) as (b & h2 & -> & Hp2 & _).
    { intros ->. simpl in Hp1. lia. }
    apply Permutation_length in Hp2. simpl in Hp2. mstep.
    destruct (heappush_spec h2 (merge a b)) as (h3 & -> & Hp3 & _).
    apply Permutation_length in Hp3. simpl in Hp3. mstep.
    apply IH; lia.
Qed.
End Counters.

(** ** Floats in range

    The division of two [int]s raises [OverflowError] only when the quotient
    is too large for a float. *)

Section FloatRange.
Local Open Scope Z_scope.

Lemma two_pow_nonpos k : k <= 0 -> 2 ^ k <= 1.
Proof.
  intros Hk. destruct k as [|p|p]; [reflexivity | lia |].
  rewrite Z.pow_neg_r; lia.
Qed.

Lemma digits2_pos_upper (p : positive) : forall k, Z.pos p < 2 ^ k -> Z.pos (digits2_pos p) <= k.
Proof.
  induction p as [p IH|p IH|]; intros k Hk.
  - assert (0 < k) by (destruct (decide (0 < k)); [lia|];
      pose proof (two_pow_nonpos k); lia).
    replace k with (Z.succ (k - 1)) in Hk by lia.
    rewrite Z.pow_succ_r in Hk by lia.
    specialize (IH (k - 1) ltac:(lia)). simpl. lia.
  - assert (0 < k) by (destruct (decide (0 < k)); [lia|];
      pose proof (two_pow_nonpos k); lia).
    replace k with (Z.succ (k - 1)) in Hk by lia.
    rewrite Z.pow_succ_r in Hk by lia.
    specialize (IH (k - 1) ltac:(lia)). simpl. lia.
  - assert (0 < k) by (destruct (decide (0 < k)); [lia|];
      pose proof (two_pow_nonpos k); lia).
    simpl. lia.
Qed.

Lemma Zdigits2_upper m k : 0 <= m < 2 ^ k -> 0 <= k -> Zdigits2 m <= k.
Proof.
  intros [H0 Hk] Hk0. destruct m as [|p|p]; simpl; [lia | | lia].
  apply digits2_pos_upper, Hk.
Qed.

Lemma shr_1_m mrs : 0 <= shr_m mrs -> shr_m (shr_1 mrs) = shr_m mrs / 2.
Proof.
  destruct mrs as [m r s]. simpl. intros Hm.
  destruct m as [|[p|p|]|p]; cbn [shr_m]; try lia; try reflexivity.
  - apply Z.div_unique with 1; lia.
  - apply Z.div_unique with 0; lia.
Qed.

Lemma iter_shr_1_m p : forall mrs,
  0 <= shr_m mrs -> shr_m (iter_pos shr_1 p mrs) = shr_m mrs / 2 ^ Z.pos p.
Proof.
  induction p as [p IH|p IH|]; intros mrs Hm.
  - simpl iter_pos.
    assert (H1 : 0 <= shr_m (shr_1 mrs)) by (rewrite shr_1_m by lia; apply Z.div_pos; lia).
    assert (H2 : 0 <= shr_m (iter_pos shr_1 p (shr_1 mrs)))
      by (rewrite IH by lia; apply Z.div_pos; [lia | apply Z.pow_pos_nonneg; lia]).
    rewrite IH, IH, shr_1_m by lia.
    rewrite !Z.div_div by (try lia; apply Z.pow_pos_nonneg; lia).
    f_equal.
    assert (E : 2 ^ Z.pos p~1 = 2 * (2 ^ Z.pos p * 2 ^ Z.pos p))
      by (rewrite <- Z.pow_add_r, <- Z.pow_succ_r by lia; f_equal; lia).
    rewrite E. ring.
  - simpl iter_pos.
    assert (H2 : 0 <= shr_m (iter_pos shr_1 p mrs))
      by (rewrite IH by lia; apply Z.div_pos; [lia | apply Z.pow_pos_nonneg; lia]).
    rewrite IH, IH by lia.
    rewrite !Z.div_div by (try lia; apply Z.pow_pos_nonneg; lia).
    f_equal. rewrite <- Z.pow_add_r by lia. f_equal. lia.
  - simpl iter_pos. rewrite shr_1_m by lia. reflexivity.
Qed.

Lemma shr_record_of_loc_m m l : shr_m (shr_record_of_loc m l) = m.
Proof. destruct l as [|[]]; reflexivity. Qed.

(** What [shr_fexp] does to a mantissa that is not negative: the exponent
    rises to the one of the format, and the mantissa loses as many bits. *)
Lemma shr_fexp_spec m e l :
  0 <= m ->
  (shr_fexp float_prec float_emax m e l).2 =
    Z.max e (fexp float_prec float_emax (Zdigits2 m + e)) /\
  shr_m (shr_fexp float_prec float_emax m e l).1 =
    m / 2 ^ ((shr_fexp float_prec float_emax m e l).2 - e).
Proof.
  intros Hm. unfold shr_fexp, shr.
  destruct (fexp float_prec float_emax (Zdigits2 m + e) - e) as [|p|p] eqn:En;
    cbn [fst snd].
  - rewrite shr_record_of_loc_m, Z.sub_diag, Z.div_1_r. split; [lia | reflexivity].
  - split; [lia|].
    rewrite iter_shr_1_m by (rewrite shr_record_of_loc_m; exact Hm).
    rewrite shr_record_of_loc_m. do 2 f_equal. lia.
  - rewrite shr_record_of_loc_m, Z.sub_diag, Z.div_1_r. split; [lia | reflexivity].
Qed.

Lemma round_nearest_even_bounds m l :
  m <= round_nearest_even m l <= m + 1.
Proof. destruct l as [|[]]; simpl; try destruct (Z.even m); lia. Qed.

Lemma fexp_upper x y :
  x <= y -> -1021 <= y -> fexp float_prec float_emax x <= y - 53.
Proof. unfold fexp, emin, float_prec, float_emax. lia. Qed.

(** Rounding a mantissa [mx] with exponent [ex] gives no infinity when
    [mx * 2 ^ ex] is at most [2 ^ K], for a [K] up to 1022. *)
Lemma binary_round_aux_in_range sx mx ex lx K :
  0 <= mx -> ex <= 0 -> 0 <= K <= 1022 -> mx <= 2 ^ (K - ex) ->
  forall s, binary_round_aux float_prec float_emax sx mx ex lx <> S754_infinity s.
Proof.
  intros Hm Hex HK Hmx s. unfold binary_round_aux.
  destruct (shr_fexp_spec mx ex lx Hm) as [He1 Hm1].
  destruct (shr_fexp float_prec float_emax mx ex lx) as [mrs1 e1].
  cbn [fst snd] in He1, Hm1.
  assert (Hd : Zdigits2 mx <= K - ex + 1).
  { apply Zdigits2_upper; [|lia]. split; [exact Hm|].
    rewrite Z.pow_add_r by lia. change (2 ^ 1) with 2.
    pose proof (Z.pow_pos_nonneg 2 (K - ex)). lia. }
  pose proof (fexp_upper (Zdigits2 mx + ex) (K + 1) ltac:(lia) ltac:(lia)) as Hf1.
  assert (He1' : ex <= e1 <= K) by lia.
  assert (Hm1' : 0 <= shr_m mrs1 <= 2 ^ (K - e1)).
  { rewrite Hm1. split; [apply Z.div_pos; [lia | apply Z.pow_pos_nonneg; lia]|].
    assert (Hp : 2 ^ (K - ex) = 2 ^ (K - e1) * 2 ^ (e1 - ex))
      by (rewrite <- Z.pow_add_r by lia; f_equal; lia).
    rewrite <- (Z.div_mul (2 ^ (K - e1)) (2 ^ (e1 - ex)))
      by (pose proof (Z.pow_pos_nonneg 2 (e1 - ex)); lia).
    apply Z.div_le_mono; [apply Z.pow_pos_nonneg; lia | lia]. }
  pose proof (round_nearest_even_bounds (shr_m mrs1) (loc_of_shr_record mrs1)) as Hr.
  set (m2 := round_nearest_even (shr_m mrs1) (loc_of_shr_record mrs1)) in *.
  assert (Hm2 : 0 <= m2) by lia.
  destruct (shr_fexp_spec m2 e1 loc_Exact Hm2) as [He2 _].
  destruct (shr_fexp float_prec float_emax m2 e1 loc_Exact) as [mrs2 e2].
  cbn [fst snd] in He2.
  assert (Hd2 : Zdigits2 m2 <= K - e1 + 2).
  { apply Zdigits2_upper; [|lia]. split; [exact Hm2|].
    rewrite Z.pow_add_r by lia. change (2 ^ 2) with 4.
    pose proof (Z.pow_pos_nonneg 2 (K - e1)). lia. }
  pose proof (fexp_upper (Zdigits2 m2 + e1) (K + 2) ltac:(lia) ltac:(lia)) as Hf2.
  destruct (shr_m mrs2); try discriminate.
  assert (Hle : (e2 <=? float_emax - float_prec) = true)
    by (apply Z.leb_le; unfold float_emax, float_prec; lia).
  rewrite Hle. discriminate.
Qed.

(** The mantissa and the exponent that the division core hands over to the
    rounding, for two positive integers. *)
Lemma SFdiv_core_binary_spec A B :
  0 < A -> 0 < B ->
  exists e l,
    SFdiv_core_binary float_prec float_emax A 0 B 0 = (A * 2 ^ (- e) / B, e, l) /\
    e <= 0.
Proof.
  intros HA HB. unfold SFdiv_core_binary.
  set (e := Z.min (fexp float_prec float_emax (Zdigits2 A + 0 - (Zdigits2 B + 0))) (0 - 0)).
  assert (He : e <= 0) by (unfold e; lia).
  set (m' := match 0 - 0 - e with Z.pos _ => Z.shiftl A (0 - 0 - e) | 0 => A | Z.neg _ => 0 end).
  assert (Hm' : m' = A * 2 ^ (- e)).
  { unfold m'. destruct (0 - 0 - e) as [|p|p] eqn:Es; [| |lia].
    - replace (- e) with 0 by lia. change (2 ^ 0) with 1. lia.
    - rewrite Z.shiftl_mul_pow2 by lia. do 2 f_equal. lia. }
  clearbody m'. subst m'.
  pose proof (f_equal fst (eq_refl (Z.div_eucl (A * 2 ^ (- e)) B))) as Hq.
  destruct (Z.div_eucl (A * 2 ^ (- e)) B) as [q r] eqn:Eq in Hq |- * at 1.
  exists e, (new_location B r). split; [|exact He].
  do 2 f_equal. unfold Z.div. rewrite Eq. reflexivity.
Qed.

(** [a / b] raises nothing when the quotient is at most [2 ^ 1022] in
    magnitude. *)
Lemma int_truediv_returns a b K :
  b <> 0 -> 0 <= K <= 1022 -> Z.abs a <= 2 ^ K * Z.abs b ->
  exists q, int_truediv a b = Computed q.
Proof.
  intros Hb HK Hab. unfold int_truediv.
  destruct (decide (b = 0)) as [|_]; [contradiction|].
  destruct (decide (a = 0)) as [|Ha]; [eauto|].
  destruct (SFdiv_core_binary_spec (Z.abs a) (Z.abs b) ltac:(lia) ltac:(lia))
    as (e & l & -> & He).
  assert (Hq : 0 <= Z.abs a * 2 ^ (- e) / Z.abs b <= 2 ^ (K - e)).
  { pose proof (Z.pow_pos_nonneg 2 (- e) ltac:(lia) ltac:(lia)) as Hp.
    split; [apply Z.div_pos; nia|].
    apply Z.div_le_upper_bound; [lia|].
    replace (K - e) with (K + - e) by lia. rewrite Z.pow_add_r by lia. nia. }
  pose proof (binary_round_aux_in_range (xorb (a <? 0) (b <? 0)) _ e l K
                (proj1 Hq) He HK (proj2 Hq)) as Hfin.
  destruct (binary_round_aux _ _ _ _ _ _) as [s|s| |s m x]; eauto.
  destruct (Hfin s eq_refl).
Qed.

Lemma SFdiv_core_binary_same A :
  0 < A ->
  SFdiv_core_binary float_prec float_emax A 0 A 0 = (2 ^ 53, -53, loc_Exact).
Proof.
  intros HA. unfold SFdiv_core_binary.
  replace (Zdigits2 A + 0 - (Zdigits2 A + 0)) with 0 by lia.
  change (Z.min (fexp float_prec float_emax 0) (0 - 0)) with (-53).
  change (0 - 0 - -53) with 53. cbv iota.
  rewrite Z.shiftl_mul_pow2 by lia.
  assert (Hq : A * 2 ^ 53 / A = 2 ^ 53) by (rewrite Z.mul_comm; apply Z.div_mul; lia).
  assert (Hr : (A * 2 ^ 53) mod A = 0) by (rewrite Z.mul_comm; apply Z.mod_mul; lia).
  unfold Z.div, Z.modulo in Hq, Hr.
  destruct (Z.div_eucl (A * 2 ^ 53) A) as [q r]. subst q r.
  unfold new_location, new_location_even, new_location_odd.
  destruct (Z.even A); reflexivity.
Qed.

(** [a / a] is the float 1.0, whatever the integer [a] other than 0. *)
Lemma int_truediv_same a :
  a <> 0 -> int_truediv a a = Computed (float_const 1).
Proof.
  intros Ha. unfold int_truediv.
  destruct (decide (a = 0)) as [|_]; [contradiction|].
  rewrite SFdiv_core_binary_same by lia.
  rewrite xorb_nilpotent. reflexivity.
Qed.

End FloatRange.

(** ** [run_huffman_steps] returns *)

Section Returns.
Lemma full_tree_leaves_pos n : full_tree n -> 1 <= length (leaves n).
Proof. induction 1; simpl; [lia | rewrite length_app; lia]. Qed.

Lemma string_length_app (a b : string) :
  String.length (a +:+ b) = String.length a + String.length b.
Proof. induction a as [|x a IH]; [reflexivity|]. exact (f_equal S IH). Qed.

Lemma paths_length_upper n :
  full_tree n -> forall p s c,
  (s, c) ∈ paths n p -> String.length c + 1 <= String.length p + length (leaves n).
Proof.
  induction 1 as [ch f|f l r Hl IHl Hr IHr]; intros p s c Hin; simpl in *.
  - apply list_elem_of_singleton in Hin. injection Hin as -> ->. lia.
  - pose proof (full_tree_leaves_pos l Hl). pose proof (full_tree_leaves_pos r Hr).
    rewrite length_app.
    apply elem_of_app in Hin as [Hin|Hin].
    + apply IHl in Hin. rewrite string_length_app in Hin. simpl in Hin. lia.
    + apply IHr in Hin. rewrite string_length_app in Hin. simpl in Hin. lia.
Qed.

Lemma chars_lower_length text : length (chars (lower text)) = String.length text.
Proof.
  unfold chars. rewrite length_map.
  induction text as [|c text IH]; [reflexivity|]. simpl. rewrite IH. reflexivity.
Qed.

Lemma record_all_lookup_elem l : forall (m : gmap Symbol string) s c,
  record_all m l !! s = Some c -> (s, c) ∈ l \/ m !! s = Some c.
Proof.
  induction l as [|[k v] l IH]; intros m s c Hc; [right; exact Hc|].
  unfold record_all in Hc. simpl in Hc. fold (record_all (<[k := v]> m) l) in Hc.
  apply IH in Hc as [Hc|Hc]; [left; apply list_elem_of_further, Hc|].
  destruct (decide (k = s)) as [->|Hks].
  - rewrite lookup_insert_eq in Hc. injection Hc as ->. left. apply list_elem_of_here.
  - rewrite lookup_insert_ne in Hc by exact Hks. right. exact Hc.
Qed.

(** A code of the table of a full tree has fewer bits than the tree has
    leaves, whether or not the symbols are distinct. *)
Lemma assign_codes_code_length r s c :
  full_tree r -> assign_codes (Some r) "" None !! s = Some c ->
  String.length c + 1 <= length (leaves r).
Proof.
  intros Hf Hc. unfold assign_codes in Hc. simpl in Hc.
  rewrite assign_codes_node_paths in Hc.
  apply record_all_lookup_elem in Hc as [Hc|Hc]; [|rewrite lookup_empty in Hc; discriminate].
  exact (paths_length_upper r Hf "" s c Hc).
Qed.

Lemma encode_skipping_length_le codes L message :
  (forall s c, codes !! s = Some c -> String.length c <= L) ->
  String.length (encode_skipping message codes) <= length message * L.
Proof.
  intros HL. induction message as [|s message IH]; [simpl; lia|].
  destruct (codes !! s) as [c|] eqn:Hc.
  - rewrite (encode_skipping_cons_in _ _ _ _ Hc), string_length_app.
    specialize (HL s c Hc). simpl. lia.
  - rewrite (encode_skipping_cons_out _ _ _ Hc). simpl. lia.
Qed.

(** The encoding of a text has at most as many bits as the text has
    characters times the table has entries. *)
Lemma encoded_length_le final_freq text root steps :
  build_huffman_tree final_freq = Ok (root, steps) ->
  String.length (encode_skipping (chars (lower text)) (assign_codes root "" None))
  <= String.length text * length final_freq.
Proof.
  intros Hb. rewrite <- (chars_lower_length text).
  apply encode_skipping_length_le. intros s c Hc.
  destruct (decide (final_freq = [])) as [->|Hne].
  - assert (He : Ok (root, steps) = Ok (None, [])) by (rewrite <- Hb; reflexivity).
    injection He as -> ->. unfold assign_codes in Hc. simpl in Hc.
    rewrite lookup_empty in Hc. discriminate.
  - destruct (build_huffman_tree_root final_freq Hne) as (r & steps' & Hb' & Hf & Hl & _).
    rewrite Hb in Hb'. injection Hb' as -> ->.
    pose proof (assign_codes_code_length r s c Hf Hc) as Hlen.
    rewrite (Permutation_length Hl) in Hlen. lia.
Qed.

Lemma small_table {A} (l : list A) : length l <= 1000 -> (Z.of_nat (length l) <= 2 ^ 1000)%Z.
Proof.
  intros Hl. assert (H : (1000 <= 2 ^ 1000)%Z) by (apply Z.leb_le; reflexivity). lia.
Qed.

(** With a table of at most [2 ^ 1000] entries the quotient of the ratio is
    within the range of a float. *)
Lemma ratio_quotient_returns final_freq text root steps :
  (Z.of_nat (length final_freq) <= 2 ^ 1000)%Z ->
  build_huffman_tree final_freq = Ok (root, steps) ->
  let encoded := encode_skipping (chars (lower text)) (assign_codes root "" None) in
  let original_bits := (Z.of_nat (String.length text) * 8)%Z in
  let compressed_bits := Z.of_nat (String.length encoded) in
  (0 < original_bits)%Z ->
  exists q, int_truediv (original_bits - compressed_bits) original_bits = Computed q.
Proof.
  intros Hn Hb encoded original_bits compressed_bits Hpos.
  apply (int_truediv_returns _ _ 1000); [lia | lia |].
  pose proof (encoded_length_le final_freq text root steps Hb) as Hle.
  fold encoded in Hle. apply Nat2Z.inj_le in Hle. rewrite Nat2Z.inj_mul in Hle.
  fold compressed_bits in Hle.
  assert (HP : (0 < 2 ^ 1000)%Z) by (apply Z.pow_pos_nonneg; lia).
  assert (0 <= compressed_bits)%Z by (unfold compressed_bits; lia).
  unfold original_bits in *. clearbody compressed_bits.
  set (P := (2 ^ 1000)%Z) in *. clearbody P.
  set (len := Z.of_nat (String.length text)) in *.
  set (n := Z.of_nat (length final_freq)) in *.
  assert (len * n <= len * P)%Z by nia.
  rewrite (Z.abs_eq (len * 8)) by lia.
  apply Z.abs_le. nia.
Qed.

(** What [run_huffman_steps] returns, for a table of at most [2 ^ 1000]
    entries. *)
Lemma run_huffman_steps_returns (final_freq : list (Symbol * Z)) (text : string) :
  (Z.of_nat (length final_freq) <= 2 ^ 1000)%Z ->
  exists root steps ratio,
    build_huffman_tree final_freq = Ok (root, steps) /\
    let codes := assign_codes root "" None in
    let encoded := encode_skipping (chars (lower text)) codes in
    let original_bits := (Z.of_nat (String.length text) * 8)%Z in
    let compressed_bits := Z.of_nat (String.length encoded) in
    ratio_formula original_bits compressed_bits ratio /\
    run_huffman_steps final_freq text =
    Ok (mkReport steps codes encoded original_bits compressed_bits ratio).
Proof.
  intros Hn.
  destruct (build_huffman_tree_greedy final_freq) as (root & steps & Hb & _).
  unfold run_huffman_steps, ratio_formula. rewrite Hb. mstep.
  rewrite encode_spec. mstep.
  destruct (0 <? Z.of_nat (String.length text) * 8)%Z eqn:Hlt.
  - destruct (ratio_quotient_returns final_freq text root steps Hn Hb) as [q Hq].
    { apply Z.ltb_lt, Hlt. }
    cbv zeta in Hq.
    exists root, steps, (Float (SFmul float_prec float_emax q (float_const 100))).
    split; [reflexivity|]. cbv zeta.
    split; [exists q; split; [exact Hq | reflexivity]|].
    rewrite Hq. reflexivity.
  - exists root, steps, (Int 0). split; [reflexivity|]. cbv zeta.
    split; reflexivity.
Qed.
End Returns.

(** * The claims *)

(** C1, as stated, fails: for the table [{a: 5}] the code of [a] is the empty
    string, not ["0"]. *)
Lemma C1_counterexample :
  exists root steps,
    build_huffman_tree one_symbol = Ok (root, steps) /\
    assign_codes root "" None !! "a" = Some "" /\
    assign_codes root "" None !! "a" <> Some "0".
Proof.
  exists (Some (leaf_of ("a", 5%Z))), []. split; [reflexivity|].
  split; [reflexivity | discriminate].
Qed.

(** C1, amended: for every frequency table with exactly one symbol,
    [build_huffman_tree] returns that symbol's leaf and an empty merge trace,
    and [assign_codes] maps the symbol to the empty string. *)
Theorem C1_single_symbol (ch : Symbol) (f : Z) :
  build_huffman_tree [(ch, f)] = Ok (Some (leaf_of (ch, f)), []) /\
  assign_codes (Some (leaf_of (ch, f))) "" None = {[ch := ""]}.
Proof. split; reflexivity. Qed.

(** C2, as stated, fails: a table with a zero count is not rejected; the tree
    is built and the zero-count symbol is one of its leaves. *)
Lemma C2_counterexample :
  (exists ch f, (ch, f) ∈ with_zero_count /\ (f <= 0)%Z) /\
  (forall e, build_huffman_tree with_zero_count <> Raise e) /\
  exists root steps,
    build_huffman_tree with_zero_count = Ok (Some root, steps) /\
    ("a", 0%Z) ∈ leaves root.
Proof.
  split; [exists "a", 0%Z; split; [apply list_elem_of_here | lia]|].
  split; [intros e; discriminate|].
  eexists _, _. split; [reflexivity|]. apply list_elem_of_here.
Qed.

(** C2, amended: [build_huffman_tree] checks no count.  For every frequency
    table, whatever the sign of its counts, it returns without raising, and
    every entry of the table is a leaf of the tree it returns. *)
Theorem C2_no_validation (freq_map : list (Symbol * Z)) :
  exists root steps,
    build_huffman_tree freq_map = Ok (root, steps) /\
    match root with Some r => leaves r | None => [] end ≡ₚ freq_map.
Proof.
  destruct freq_map as [|entry freq_map].
  - exists None, []. split; reflexivity.
  - destruct (build_huffman_tree_root (entry :: freq_map)) as (r & steps & Hb & _ & Hl & _);
      [discriminate|].
    exists (Some r), steps. auto.
Qed.

(** C3: for every frequency table with at least two distinct symbols of
    positive count, the code table that [assign_codes] makes of the tree of
    [build_huffman_tree] is prefix-free: no symbol's code is a prefix of
    another symbol's code. *)
Theorem C3_prefix_free (freq_map : list (Symbol * Z)) :
  NoDup freq_map.*1 ->
  2 <= length (filter (fun entry => (0 < entry.2)%Z) freq_map) ->
  exists root steps,
    build_huffman_tree freq_map = Ok (root, steps) /\
    prefix_free (assign_codes root "" None).
Proof.
  intros Hnd Hlen.
  destruct (build_huffman_tree_root freq_map) as (r & steps & Hb & Hfull & Hl & _).
  { intros ->. simpl in Hlen. lia. }
  exists (Some r), steps. split; [exact Hb|].
  apply assign_codes_prefix_free; [exact Hfull|]. rewrite Hl. exact Hnd.
Qed.

Lemma C3_witness :
  NoDup scenario.*1 /\
  2 <= length (filter (fun entry => (0 < entry.2)%Z) scenario) /\
  exists root steps,
    build_huffman_tree scenario = Ok (root, steps) /\
    prefix_free (assign_codes root "" None).
Proof.
  assert (Hnd : NoDup scenario.*1) by (refine (bool_decide_unpack _ _); vm_compute; exact I).
  assert (Hlen : 2 <= length (filter (fun entry => (0 < entry.2)%Z) scenario))
    by (vm_compute; lia).
  repeat (split; [assumption|]).
  exact (C3_prefix_free scenario Hnd Hlen).
Defined.

(** C4: every merge step [(left, right, mergedWeight)] of the trace has
    [mergedWeight = left.freq + right.freq], and for a non-empty table the
    weight of the root is the sum of all the frequencies. *)
Theorem C4_weight_conservation (freq_map : list (Symbol * Z)) :
  exists root steps,
    build_huffman_tree freq_map = Ok (root, steps) /\
    Forall (fun step : MergeStep => step.2 = (freq step.1.1 + freq step.1.2)%Z) steps /\
    (freq_map <> [] -> exists r, root = Some r /\ freq r = sum_freq freq_map).
Proof.
  destruct (build_huffman_tree_greedy freq_map) as (root & steps & Hb & Hrun).
  exists root, steps. split; [exact Hb|]. split.
  - eapply greedy_run_trace; eauto.
  - intros Hne. destruct (greedy_run_root _ _ _ Hrun Hne) as (r & -> & _ & _ & Hw & _).
    eauto.
Qed.

(** C5: [build_huffman_tree] returns, and what it returns is the outcome of a
    run of the greedy merge: from one leaf per symbol, while more than one
    node remains, the two lowest-weight nodes [a] then [b] are taken out, the
    node with [a] left, [b] right and weight [a.freq + b.freq] is put back and
    [(a, b, weight)] is appended to the trace, until at most one node
    remains. *)
Theorem C5_greedy_merge (freq_map : list (Symbol * Z)) :
  exists root steps,
    build_huffman_tree freq_map = Ok (root, steps) /\
    greedy_run freq_map root steps.
Proof.
  unfold build_huffman_tree. rewrite map_leaf_of.
  destruct (heapify_spec (map leaf_of freq_map)) as (heap & -> & Hperm & Hheap).
  mstep.
  destruct (build_loop_spec (length heap) heap [])
    as (final & trace & -> & Hrun & Hfinal); [lia | exact Hheap |].
  mstep. exists (head final), trace. split; [reflexivity|].
  exists final. split; [|split; [exact Hfinal | reflexivity]].
  apply (rtc_greedy_perm heap); [exact Hperm | exact Hfinal | exact Hrun].
Qed.

Lemma encode_empty_codes (message : list Symbol) : encode message ∅ = Ok "".
Proof.
  rewrite encode_spec. f_equal.
  induction message as [|s message IH]; [reflexivity|].
  rewrite encode_skipping_cons_out by apply lookup_empty. exact IH.
Qed.

Lemma filter_empty_codes (message : list Symbol) :
  filter (fun s => s ∈ dom (∅ : gmap Symbol string)) message = [].
Proof.
  induction message as [|s message IH]; [reflexivity|].
  rewrite filter_cons_False; [exact IH|].
  rewrite dom_empty_L. apply not_elem_of_empty.
Qed.

Lemma filter_known (codes : gmap Symbol string) (message : list Symbol) :
  Forall (fun s => s ∈ dom codes) message ->
  filter (fun s => s ∈ dom codes) message = message.
Proof.
  induction 1 as [|s message Hs _ IH]; [reflexivity|].
  rewrite filter_cons_True by exact Hs. rewrite IH. reflexivity.
Qed.

(** C6, as stated, fails: with the code table of [{a: 5}] both ["a"] and
    ["aa"] encode to the empty bitstring, which decodes to no symbol at all,
    while [a] is a key of the code table. *)
Lemma C6_counterexample :
  exists root steps,
    build_huffman_tree one_symbol = Ok (root, steps) /\
    encode ["a"] (assign_codes root "" None) = Ok "" /\
    encode ["a"; "a"] (assign_codes root "" None) = Ok "" /\
    decode root "" = [] /\
    filter (fun s => s ∈ dom (assign_codes root "" None)) ["a"] = ["a"].
Proof.
  exists (Some (leaf_of ("a", 5%Z))), []. repeat split; vm_compute; reflexivity.
Qed.

(** C6, amended: for every frequency table that does not consist of exactly
    one symbol, and every message, encoding never fails and decoding the
    bitstring with the prefix tree gives back the message's symbols that are
    keys of the code table, in order. *)
Theorem C6_round_trip (freq_map : list (Symbol * Z)) :
  NoDup freq_map.*1 -> length freq_map <> 1 ->
  exists root steps,
    build_huffman_tree freq_map = Ok (root, steps) /\
    forall message : list Symbol,
      exists bits,
        encode message (assign_codes root "" None) = Ok bits /\
        decode root bits =
          filter (fun s => s ∈ dom (assign_codes root "" None)) message /\
        (Forall (fun s => s ∈ dom (assign_codes root "" None)) message ->
         decode root bits = message).
Proof.
  intros Hnd Hlen.
  assert (Hall : forall root bits (message : list Symbol),
            decode root bits =
              filter (fun s => s ∈ dom (assign_codes root "" None)) message ->
            Forall (fun s => s ∈ dom (assign_codes root "" None)) message ->
            decode root bits = message).
  { intros root bits message -> Hknown. apply filter_known, Hknown. }
  destruct freq_map as [|entry freq_map].
  - exists None, []. split; [reflexivity|]. intros message. exists "".
    split; [apply encode_empty_codes|].
    assert (Hd : decode None "" =
              filter (fun s => s ∈ dom (assign_codes None "" None)) message)
      by (symmetry; apply filter_empty_codes).
    split; [exact Hd | apply Hall, Hd].
  - destruct (build_huffman_tree_root (entry :: freq_map))
      as (r & steps & Hb & Hfull & Hl & _); [discriminate|].
    exists (Some r), steps. split; [exact Hb|]. intros message.
    exists (encode_skipping message (assign_codes (Some r) "" None)).
    split; [apply encode_spec|].
    assert (Hd : decode (Some r) (encode_skipping message (assign_codes (Some r) "" None)) =
              filter (fun s => s ∈ dom (assign_codes (Some r) "" None)) message).
    { apply decode_encode; [exact Hfull | |].
      - apply full_tree_inner; [exact Hfull|].
        rewrite (Permutation_length Hl). simpl in *. lia.
      - intros s c. apply assign_codes_lookup. rewrite Hl. exact Hnd. }
    split; [exact Hd | apply Hall, Hd].
Qed.

Lemma C6_witness :
  NoDup scenario.*1 /\ length scenario <> 1 /\
  exists root steps,
    build_huffman_tree scenario = Ok (root, steps) /\
    forall message : list Symbol,
      exists bits,
        encode message (assign_codes root "" None) = Ok bits /\
        decode root bits =
          filter (fun s => s ∈ dom (assign_codes root "" None)) message /\
        (Forall (fun s => s ∈ dom (assign_codes root "" None)) message ->
         decode root bits = message).
Proof.
  assert (Hnd : NoDup scenario.*1) by (refine (bool_decide_unpack _ _); vm_compute; exact I).
  assert (Hlen : length scenario <> 1) by (simpl; lia).
  repeat (split; [assumption|]).
  exact (C6_round_trip scenario Hnd Hlen).
Defined.

(** C7: for the empty frequency table [build_huffman_tree] returns no root
    and an empty trace, [assign_codes] of no root is the empty code table,
    and every message encodes to the empty bitstring with it; nothing is
    raised. *)
Theorem C7_empty_table :
  build_huffman_tree [] = Ok (None, []) /\
  assign_codes None "" None = ∅ /\
  forall message : list Symbol, encode message (assign_codes None "" None) = Ok "".
Proof.
  split; [reflexivity|]. split; [reflexivity|].
  intros message. apply encode_empty_codes.
Qed.

(** C8: for every message and code table the encoder returns, without
    raising, the codes of the message symbols that are keys of the code
    table, in message order, concatenated; the other symbols are skipped. *)
Theorem C8_encode_skips_unknown (message : list Symbol) (codes : gmap Symbol string) :
  encode message codes = Ok (encode_skipping message codes).
Proof.
  unfold encode, encode_skipping.
  assert (Hparts : encode_parts codes message =
            Ok (map (fun s => codes !!! s) (filter (fun s => s ∈ dom codes) message))).
  { induction message as [|ch message IH]; [reflexivity|].
    simpl. unfold codes_contains, codes_getitem.
    destruct (decide (ch ∈ dom codes)) as [Hin|Hout].
    - rewrite bool_decide_eq_true_2, filter_cons_True by exact Hin.
      destruct (proj1 (elem_of_dom codes ch) Hin) as [code Hcode].
      rewrite Hcode, IH. mstep. simpl.
      rewrite (lookup_total_correct _ _ _ Hcode). reflexivity.
    - rewrite bool_decide_eq_false_2, filter_cons_False by exact Hout.
      exact IH. }
  rewrite Hparts. reflexivity.
Qed.

(** C9, as stated, fails twice.  For the message ["aaaa"] and the one-entry
    table [{a: 4}] the code of [a] is empty, so the compressed size is 0
    bits, not 4, and the ratio is 100, not 87.5.  And the ratio is a float,
    the quotient rounded and then the product rounded: for the text
    ["Hello, World!"], 104 bits encoded in 28, it is
    [2571165652645415 / 35184372088832], not [(104 - 28) / 104 * 100]. *)
Lemma C9_counterexample :
  (exists r,
     run_huffman_steps [("a", 4%Z)] "aaaa" = Ok r /\
     original_bits r = 32%Z /\ compressed_bits r = 0%Z /\
     has_value (compression_ratio r) 100%Q /\
     ~ has_value (compression_ratio r) 87.5%Q) /\
  (exists final_freq r,
     animate_frequency_count "Hello, World!" = Ok final_freq /\
     run_huffman_steps final_freq "Hello, World!" = Ok r /\
     original_bits r = 104%Z /\ compressed_bits r = 28%Z /\
     has_value (compression_ratio r) (2571165652645415 # 35184372088832)%Q /\
     ~ has_value (compression_ratio r) ((104 - 28) / 104 * 100)%Q).
Proof.
  split.
  - eexists. split; [vm_compute; reflexivity|].
    split; [reflexivity|]. split; [reflexivity|]. split.
    + eexists. split; vm_compute; reflexivity.
    + intros (q & Hq & He). vm_compute in Hq. injection Hq as <-.
      vm_compute in He. discriminate.
  - eexists _, _. split; [vm_compute; reflexivity|].
    split; [vm_compute; reflexivity|].
    split; [reflexivity|]. split; [reflexivity|]. split.
    + eexists. split; vm_compute; reflexivity.
    + intros (q & Hq & He). vm_compute in Hq. injection Hq as <-.
      vm_compute in He. discriminate.
Qed.

(** C9, amended: for a table of at most [2 ^ 1000] entries
    [run_huffman_steps] returns; the original size is 8 bits per character of
    the text, the compressed size is the length of the encoded bitstring, and
    the ratio is [(original - compressed) / original * 100] computed with
    floats, the quotient of the two sizes rounded and then its product with
    100 rounded, when the original size is positive, and 0 otherwise.  For
    the message ["aaaa"] the original size is 32 bits; with the 26-letter
    table that [animate_frequency_count] makes of it the compressed size is 4
    bits and the ratio 87.5, and with the one-entry table [{a: 4}] the
    compressed size is 0 bits and the ratio 100. *)
Theorem C9_compression_metric :
  (forall (final_freq : list (Symbol * Z)) (text : string),
     (Z.of_nat (length final_freq) <= 2 ^ 1000)%Z ->
     exists r,
       run_huffman_steps final_freq text = Ok r /\
       original_bits r = (8 * Z.of_nat (String.length text))%Z /\
       compressed_bits r = Z.of_nat (String.length (encoded r)) /\
       ratio_formula (original_bits r) (compressed_bits r) (compression_ratio r)) /\
  (exists final_freq r,
     animate_frequency_count "aaaa" = Ok final_freq /\
     run_huffman_steps final_freq "aaaa" = Ok r /\
     original_bits r = 32%Z /\ compressed_bits r = 4%Z /\
     has_value (compression_ratio r) 87.5%Q) /\
  (exists r,
     run_huffman_steps [("a", 4%Z)] "aaaa" = Ok r /\
     original_bits r = 32%Z /\ compressed_bits r = 0%Z /\
     has_value (compression_ratio r) 100%Q).
Proof.
  split; [|split].
  - intros final_freq text Hn.
    destruct (run_huffman_steps_returns final_freq text Hn)
      as (root & steps & ratio & _ & Hratio & Hr).
    eexists. split; [exact Hr|].
    cbn [original_bits compressed_bits encoded compression_ratio].
    split; [lia|]. split; [reflexivity | exact Hratio].
  - eexists _, _. split; [vm_compute; reflexivity|].
    split; [vm_compute; reflexivity|].
    split; [reflexivity|]. split; [reflexivity|].
    eexists. split; vm_compute; reflexivity.
  - eexists. split; [vm_compute; reflexivity|].
    split; [reflexivity|]. split; [reflexivity|].
    eexists. split; vm_compute; reflexivity.
Qed.

(** C10: for every frequency table with [n >= 1] distinct symbols,
    [build_huffman_tree] returns a root and a trace of [n - 1] merge steps;
    the tree is full and has exactly [n] leaves, one per entry of the table,
    and the keys of the code table that [assign_codes] makes of it are
    exactly the symbols of the table. *)
Theorem C10_tree_shape (freq_map : list (Symbol * Z)) :
  NoDup freq_map.*1 -> 1 <= length freq_map ->
  exists root steps,
    build_huffman_tree freq_map = Ok (Some root, steps) /\
    length steps = length freq_map - 1 /\
    full_tree root /\ leaves root ≡ₚ freq_map /\
    length (leaves root) = length freq_map /\
    dom (assign_codes (Some root) "" None) = list_to_set freq_map.*1.
Proof.
  intros _ Hlen.
  destruct (build_huffman_tree_root freq_map) as (r & steps & Hb & Hfull & Hl & _ & Hs).
  { intros ->. simpl in Hlen. lia. }
  exists r, steps. repeat (split; [assumption|]).
  split; [apply Permutation_length, Hl|].
  rewrite assign_codes_dom. apply set_eq. intros s.
  rewrite !elem_of_list_to_set, Hl. reflexivity.
Qed.

Lemma C10_witness :
  NoDup scenario.*1 /\ 1 <= length scenario /\
  exists root steps,
    build_huffman_tree scenario = Ok (Some root, steps) /\
    length steps = length scenario - 1 /\
    full_tree root /\ leaves root ≡ₚ scenario /\
    length (leaves root) = length scenario /\
    dom (assign_codes (Some root) "" None) = list_to_set scenario.*1.
Proof.
  assert (Hnd : NoDup scenario.*1) by (refine (bool_decide_unpack _ _); vm_compute; exact I).
  assert (Hlen : 1 <= length scenario) by (simpl; lia).
  repeat (split; [assumption|]).
  exact (C10_tree_shape scenario Hnd Hlen).
Defined.

(** * Further properties *)

Section Shape.
Implicit Types (q : list Node) (trace steps : list MergeStep)
  (freq_map : list (Symbol * Z)).

Lemma shape_inv_init freq_map : shape_inv (map leaf_of freq_map, []).
Proof.
  unfold shape_inv. simpl. split; [|split; [|constructor]].
  - apply Forall_forall. intros n Hn. apply list_elem_of_fmap in Hn as ([ch f] & -> & _).
    constructor.
  - induction freq_map as [|[ch f] l IH]; [reflexivity | exact IH].
Qed.

Lemma inner_nodes_merge a b :
  inner_nodes (merge a b) = merge a b :: inner_nodes a ++ inner_nodes b.
Proof. reflexivity. Qed.

Lemma shape_inv_step st st' :
  greedy_step st st' -> shape_inv st -> shape_inv st'.
Proof.
  intros Hs (Hn & Hin & Htr).
  inversion Hs as [q q1 q2 q' a b trace Hlen Ha Hla Hb Hlb Hq']; subst.
  simpl in *.
  assert (Hq2 : q ≡ₚ a :: b :: q2) by (rewrite Ha, Hb; reflexivity).
  assert (Hs' : (freq a <= freq b)%Z).
  { apply Hla. rewrite Hq2. apply list_elem_of_further, list_elem_of_here. }
  rewrite Hq2 in Hn, Hin.
  apply Forall_cons in Hn as [Hna Hn]. apply Forall_cons in Hn as [Hnb Hn].
  unfold shape_inv. simpl. split; [|split].
  - rewrite Hq'. constructor; [constructor; assumption | assumption].
  - rewrite Hq', map_app. cbn [map]. rewrite <- Permutation_cons_append, <- Hin.
    change (merge a b :: (inner_nodes a ++ inner_nodes b) ++ flat_map inner_nodes q2
            ≡ₚ merge a b :: inner_nodes a ++ inner_nodes b ++ flat_map inner_nodes q2).
    rewrite <- !app_assoc. reflexivity.
  - apply Forall_app. split; [exact Htr|]. constructor; [exact Hs' | constructor].
Qed.

Lemma shape_inv_rtc st st' :
  rtc greedy_step st st' -> shape_inv st -> shape_inv st'.
Proof. induction 1; eauto using shape_inv_step. Qed.
End Shape.

Section ShapeResults.
Implicit Types (q : list Node) (trace steps : list MergeStep)
  (freq_map : list (Symbol * Z)).

Lemma greedy_run_shape freq_map root trace :
  greedy_run freq_map root trace ->
  exists final, shape_inv (final, trace) /\ length final <= 1 /\ root = head final.
Proof.
  intros (final & Hrtc & Hlen & Hroot). exists final. split; [|auto].
  eapply shape_inv_rtc; [exact Hrtc | apply shape_inv_init].
Qed.

Lemma greedy_run_last freq_map root trace :
  greedy_run freq_map root trace -> 2 <= length freq_map ->
  exists a b, last trace = Some (a, b, (freq a + freq b)%Z) /\ root = Some (merge a b).
Proof.
  intros (final & Hrtc & Hlen & ->) Hn.
  apply rtc_inv_r in Hrtc as [Heq|(st & _ & Hs)].
  - injection Heq as <- _. rewrite length_map in Hlen. lia.
  - inversion Hs as [q q1 q2 q' a b tr _ _ _ _ _ Hq']; subst.
    exists a, b. split; [apply last_snoc|].
    destruct final as [|x [|y final]]; simpl in Hlen; try lia.
    + apply Permutation_nil_cons in Hq'. destruct Hq'.
    + pose proof (Permutation_length Hq') as Hl. simpl in Hl.
      destruct q2; simpl in Hl; [|lia].
      apply Permutation_singleton_r in Hq'. injection Hq' as ->. reflexivity.
Qed.

Lemma paths_length_lower n p s c :
  (s, c) ∈ paths n p -> String.length p <= String.length c.
Proof.
  intros Hin. apply paths_elem in Hin as (q & -> & _).
  rewrite string_length_app. lia.
Qed.

Lemma paths_inner_nonempty n s c :
  full_tree n -> char n = None -> (s, c) ∈ paths n "" -> 1 <= String.length c.
Proof.
  intros Hfull Hinner Hin. destruct Hfull as [ch f|f l r Hl Hr]; [discriminate|].
  simpl in Hin. apply elem_of_app in Hin as [Hin|Hin];
    apply paths_length_lower in Hin; exact Hin.
Qed.

Lemma ascending_snoc ws x :
  ascending ws -> (forall w, last ws = Some w -> (w <= x)%Z) -> ascending (ws ++ [x]).
Proof.
  intros Hasc Hlast i j wi wj Hij Hi Hj.
  pose proof (lookup_lt_Some _ _ _ Hj) as Hjl. rewrite length_app in Hjl. simpl in Hjl.
  destruct (decide (j < length ws)) as [Hjw|Hjw].
  - rewrite lookup_app_l in Hi, Hj by lia. eauto.
  - assert (j = length ws) as -> by lia.
    rewrite lookup_app_r, Nat.sub_diag in Hj by lia. injection Hj as <-.
    destruct (decide (i = length ws)) as [->|Hne].
    + rewrite lookup_app_r, Nat.sub_diag in Hi by lia. injection Hi as <-. lia.
    + rewrite lookup_app_l in Hi by lia.
      destruct (last ws) as [w|] eqn:Hw.
      * pose proof (Hlast w eq_refl). rewrite last_lookup in Hw.
        pose proof (Hasc i (pred (length ws)) wi w ltac:(lia) Hi Hw). lia.
      * apply last_None in Hw. subst ws. simpl in *. lia.
Qed.

Lemma ascending_inv_init freq_map :
  Forall (fun entry => (0 <= entry.2)%Z) freq_map ->
  ascending_inv (map leaf_of freq_map, []).
Proof.
  intros Hpos. exists 0%Z. simpl. split; [lia|]. split; [|split].
  - apply Forall_forall. intros n Hn. apply list_elem_of_fmap in Hn as ([ch f] & -> & Hin).
    apply (proj1 (Forall_forall _ _) Hpos) in Hin. exact Hin.
  - discriminate.
  - intros i j wi wj _ Hi. discriminate.
Qed.

Lemma ascending_inv_step st st' :
  greedy_step st st' -> ascending_inv st -> ascending_inv st'.
Proof.
  intros Hs (β & Hβ & Hq & Hlast & Hasc).
  inversion Hs as [q q1 q2 q' a b trace Hlen Ha Hla Hb Hlb Hq']; subst.
  simpl in *.
  assert (Hq2 : q ≡ₚ a :: b :: q2) by (rewrite Ha, Hb; reflexivity).
  assert (Hab : (freq a <= freq b)%Z).
  { apply Hla. rewrite Hq2. apply list_elem_of_further, list_elem_of_here. }
  rewrite Hq2 in Hq.
  apply Forall_cons in Hq as [Hqa Hq]. apply Forall_cons in Hq as [Hqb Hq].
  exists (freq b). simpl. split; [lia|]. split; [|split].
  - rewrite Hq'. constructor; [simpl; lia|].
    apply Forall_forall. intros y Hy. apply Hlb. rewrite Hb.
    apply list_elem_of_further, Hy.
  - intros w. rewrite map_app. simpl. rewrite last_snoc. intros [= <-]. lia.
  - rewrite map_app. simpl. apply ascending_snoc; [exact Hasc|].
    intros w Hw. apply Hlast in Hw. lia.
Qed.

Lemma ascending_inv_rtc st st' :
  rtc greedy_step st st' -> ascending_inv st -> ascending_inv st'.
Proof. induction 1; eauto using ascending_inv_step. Qed.

(** In every merge step of the trace the node popped first, [left], is not
    heavier than the node popped second, [right]. *)
Theorem merge_steps_light_left (freq_map : list (Symbol * Z)) :
  exists root steps,
    build_huffman_tree freq_map = Ok (root, steps) /\
    Forall (fun step : MergeStep => (freq step.1.1 <= freq step.1.2)%Z) steps.
Proof.
  destruct (build_huffman_tree_greedy freq_map) as (root & steps & Hb & Hrun).
  exists root, steps. split; [exact Hb|].
  destruct (greedy_run_shape _ _ _ Hrun) as (final & (_ & _ & Htr) & _).
  exact Htr.
Qed.

(** Whatever the table, the tree returned is made of leaves, one per entry
    and with the entry's count as weight, and of inner nodes that have two
    children and no symbol, weigh what their children weigh together and
    have their lighter child on the left. *)
Theorem tree_weights_and_order (freq_map : list (Symbol * Z)) :
  exists root steps,
    build_huffman_tree freq_map = Ok (root, steps) /\
    forall r, root = Some r -> huffman_node r /\ leaves r ≡ₚ freq_map.
Proof.
  destruct (build_huffman_tree_greedy freq_map) as (root & steps & Hb & Hrun).
  exists root, steps. split; [exact Hb|]. intros r ->.
  destruct (greedy_run_shape _ _ _ Hrun) as (final & (Hn & _ & _) & Hlen & Hroot).
  destruct (greedy_run_inv _ _ _ Hrun)
    as (final' & (_ & _ & Hleaves & _ & _ & _) & Hlen' & Hroot').
  simpl in *.
  destruct final as [|x [|y final]]; simpl in *; try lia; try discriminate.
  destruct final' as [|x' [|y' final']]; simpl in *; try lia; try discriminate.
  injection Hroot as ->. injection Hroot' as ->.
  apply Forall_cons in Hn as [Hn _]. rewrite app_nil_r in Hleaves. auto.
Qed.

(** The trace and the tree tell the same story: the inner nodes of the tree
    are exactly the nodes that the merge steps made, one per step, and with
    two entries or more the last step is the one that made the root. *)
Theorem trace_builds_tree (freq_map : list (Symbol * Z)) :
  exists root steps,
    build_huffman_tree freq_map = Ok (root, steps) /\
    match root with Some r => inner_nodes r | None => [] end
      ≡ₚ map merged_node steps /\
    (2 <= length freq_map ->
     exists a b,
       last steps = Some (a, b, (freq a + freq b)%Z) /\ root = Some (merge a b)).
Proof.
  destruct (build_huffman_tree_greedy freq_map) as (root & steps & Hb & Hrun).
  exists root, steps. split; [exact Hb|]. split.
  - destruct (greedy_run_shape _ _ _ Hrun) as (final & (_ & Hin & _) & Hlen & ->).
    simpl in *. destruct final as [|x [|y final]]; simpl in *; try lia.
    + exact Hin.
    + rewrite app_nil_r in Hin. exact Hin.
  - intros Hn. eapply greedy_run_last; eauto.
Qed.

(** With two distinct symbols or more, every code is at least one bit long
    and shorter than the number of symbols. *)
Theorem code_length_bounds (freq_map : list (Symbol * Z)) :
  NoDup freq_map.*1 -> 2 <= length freq_map ->
  exists root steps,
    build_huffman_tree freq_map = Ok (root, steps) /\
    forall s c,
      assign_codes root "" None !! s = Some c ->
      1 <= String.length c <= length freq_map - 1.
Proof.
  intros Hnd Hlen.
  destruct (build_huffman_tree_root freq_map) as (r & steps & Hb & Hfull & Hl & _).
  { intros ->. simpl in Hlen. lia. }
  exists (Some r), steps. split; [exact Hb|]. intros s c Hc.
  apply assign_codes_lookup in Hc; [|rewrite Hl; exact Hnd].
  pose proof (Permutation_length Hl) as Hn.
  split.
  - apply (paths_inner_nonempty r s c Hfull); [|exact Hc].
    apply full_tree_inner; [exact Hfull | lia].
  - pose proof (paths_length_upper r Hfull "" s c Hc) as Hu. simpl in Hu. lia.
Qed.

Lemma code_length_bounds_witness :
  NoDup scenario.*1 /\ 2 <= length scenario /\
  exists root steps,
    build_huffman_tree scenario = Ok (root, steps) /\
    forall s c,
      assign_codes root "" None !! s = Some c ->
      1 <= String.length c <= length scenario - 1.
Proof.
  assert (Hnd : NoDup scenario.*1) by (refine (bool_decide_unpack _ _); vm_compute; exact I).
  assert (Hlen : 2 <= length scenario) by (simpl; lia).
  repeat (split; [assumption|]).
  exact (code_length_bounds scenario Hnd Hlen).
Defined.

(** When no count is negative, the merged weights of the trace never go
    down from one step to a later one. *)
Theorem merged_weights_ascending (freq_map : list (Symbol * Z)) :
  Forall (fun entry => (0 <= entry.2)%Z) freq_map ->
  exists root steps,
    build_huffman_tree freq_map = Ok (root, steps) /\
    ascending (map snd steps).
Proof.
  intros Hpos.
  destruct (build_huffman_tree_greedy freq_map) as (root & steps & Hb & Hrun).
  exists root, steps. split; [exact Hb|].
  destruct Hrun as (final & Hrtc & _ & _).
  destruct (ascending_inv_rtc _ _ Hrtc (ascending_inv_init _ Hpos)) as (β & _ & _ & _ & Hasc).
  exact Hasc.
Qed.

Lemma merged_weights_ascending_witness :
  Forall (fun entry => (0 <= entry.2)%Z) scenario /\
  exists root steps,
    build_huffman_tree scenario = Ok (root, steps) /\
    ascending (map snd steps).
Proof.
  assert (Hpos : Forall (fun entry => (0 <= entry.2)%Z) scenario)
    by (repeat constructor; simpl; lia).
  split; [exact Hpos|]. exact (merged_weights_ascending scenario Hpos).
Defined.
End ShapeResults.

Section Counting.
Implicit Types (d freq_data : list (Symbol * Z)) (ch : Symbol) (message : list Symbol).

Lemma occurrences_cons ch x message :
  occurrences ch (x :: message) =
  ((if decide (x = ch) then 1 else 0) + occurrences ch message)%Z.
Proof.
  unfold occurrences. destruct (decide (x = ch)) as [Heq|Hne].
  - rewrite filter_cons_True by exact Heq. simpl. lia.
  - rewrite filter_cons_False by exact Hne. lia.
Qed.

Lemma dict_incr_spec d ch :
  NoDup d.*1 -> ch ∈ d.*1 ->
  dict_incr d ch =
  Ok (map (fun e => (e.1, if decide (e.1 = ch) then (e.2 + 1)%Z else e.2)) d).
Proof.
  induction d as [|[k v] d IH]; intros Hnd Hin.
  - apply elem_of_nil in Hin. destruct Hin.
  - rewrite fmap_cons in Hnd, Hin. apply NoDup_cons in Hnd as [Hk Hnd].
    simpl in *. destruct (decide (k = ch)) as [->|Hne].
    + mstep. f_equal. f_equal.
      rewrite <- (map_id d) at 1. apply map_ext_in. intros [k' v'] Hin'. simpl.
      destruct (decide (k' = ch)) as [->|]; [|reflexivity].
      exfalso. apply Hk. apply list_elem_of_fmap. exists (ch, v').
      split; [reflexivity | apply list_elem_of_In, Hin'].
    + apply elem_of_cons in Hin as [Heq|Hin]; [congruence|].
      rewrite (IH Hnd Hin). reflexivity.
Qed.

Lemma count_steps_spec message : forall d,
  NoDup d.*1 ->
  count_steps message d =
  Ok (map (fun e => (e.1, (e.2 + occurrences e.1 message)%Z)) d).
Proof.
  induction message as [|ch rest IH]; intros d Hnd.
  - simpl. f_equal. rewrite <- (map_id d) at 1. apply map_ext. intros [k v].
    unfold occurrences. simpl. f_equal. lia.
  - simpl. unfold dict_contains.
    destruct (decide (ch ∈ d.*1)) as [Hin|Hout].
    + rewrite bool_decide_eq_true_2 by exact Hin.
      rewrite (dict_incr_spec d ch Hnd Hin). mstep.
      rewrite IH.
      * f_equal. rewrite map_map. apply map_ext. intros [k v]. simpl.
        rewrite occurrences_cons.
        repeat case_decide; subst; try congruence; f_equal; lia.
      * rewrite <- list_fmap_compose.
        erewrite list_fmap_ext; [exact Hnd|]. intros i [k v] _. reflexivity.
    + rewrite bool_decide_eq_false_2 by exact Hout. mstep.
      rewrite (IH d Hnd). f_equal. apply map_ext_in. intros [k v] Hin. simpl.
      rewrite occurrences_cons.
      destruct (decide (ch = k)) as [->|Hne]; [|f_equal; lia].
      exfalso. apply Hout. apply list_elem_of_fmap. exists (k, v).
      split; [reflexivity | apply list_elem_of_In, Hin].
Qed.

Lemma letters_NoDup : NoDup letters.
Proof. refine (bool_decide_unpack _ _). vm_compute. exact I. Qed.

(** The table that [animate_frequency_count] hands on has the 26 letters in
    order, each with the number of times it occurs in the lower-cased text;
    nothing is raised, and characters that are not letters are not counted. *)
Theorem animate_frequency_count_counts (text : string) :
  animate_frequency_count text =
  Ok (map (fun ch => (ch, occurrences ch (chars (lower text)))) letters).
Proof.
  unfold animate_frequency_count. rewrite count_steps_spec.
  - unfold letters. rewrite !map_map. f_equal.
  - rewrite <- list_fmap_compose.
    erewrite list_fmap_ext; [exact letters_NoDup|]. intros i x _. reflexivity.
Qed.
End Counting.

Section Program.
Implicit Types (text : string) (freq_map : list (Symbol * Z)).

Lemma counted_keys text :
  (map (fun ch => (ch, occurrences ch (chars (lower text)))) letters).*1 = letters.
Proof.
  rewrite <- list_fmap_compose. rewrite <- (list_fmap_id letters) at 2.
  apply list_fmap_ext. intros i x _. reflexivity.
Qed.

Lemma letters_length : length letters = 26.
Proof. reflexivity. Qed.

Lemma run_huffman_steps_table freq_map text :
  NoDup freq_map.*1 -> 2 <= length freq_map <= 1000 ->
  exists r root,
    run_huffman_steps freq_map text = Ok r /\
    build_huffman_tree freq_map = Ok (Some root, merge_steps r) /\
    codes r = assign_codes (Some root) "" None /\
    encoded r = encode_skipping (chars (lower text)) (codes r) /\
    original_bits r = (Z.of_nat (String.length text) * 8)%Z /\
    compressed_bits r = Z.of_nat (String.length (encoded r)) /\
    full_tree root /\ leaves root ≡ₚ freq_map.
Proof.
  intros Hnd Hlen.
  destruct (build_huffman_tree_root freq_map) as (root & steps & Hb & Hfull & Hl & _).
  { intros ->. simpl in Hlen. lia. }
  destruct (run_huffman_steps_returns freq_map text (small_table _ (proj2 Hlen)))
    as (root' & steps' & ratio & Hb' & _ & Hr).
  rewrite Hb in Hb'. injection Hb' as <- <-.
  eexists _, root. split; [exact Hr|]. simpl. auto 10.
Qed.

(** Whatever the text, the program's code table has the 26 letters as keys,
    the trace has 25 merge steps, the codes are prefix-free and each code is
    between 1 and 25 bits long. *)
Theorem program_code_table (text : string) :
  exists final_freq r,
    animate_frequency_count text = Ok final_freq /\
    run_huffman_steps final_freq text = Ok r /\
    length (merge_steps r) = 25 /\
    dom (codes r) = list_to_set letters /\
    prefix_free (codes r) /\
    forall s c, codes r !! s = Some c -> 1 <= String.length c <= 25.
Proof.
  eexists _. rewrite animate_frequency_count_counts.
  set (fm := map (fun ch => (ch, occurrences ch (chars (lower text)))) letters).
  assert (Hkeys : fm.*1 = letters) by apply counted_keys.
  assert (Hnd : NoDup fm.*1) by (rewrite Hkeys; apply letters_NoDup).
  assert (Hlen : length fm = 26) by (unfold fm; rewrite length_map; reflexivity).
  destruct (run_huffman_steps_table fm text Hnd ltac:(lia))
    as (r & root & Hr & Hb & Hcodes & _ & _ & _ & Hfull & Hl).
  exists r. split; [reflexivity|]. split; [exact Hr|].
  destruct (build_huffman_tree_root fm) as (root' & steps' & Hb' & _ & _ & _ & Hsteps).
  { intros Hfm. rewrite Hfm in Hlen. discriminate. }
  rewrite Hb in Hb'. injection Hb' as <- <-.
  assert (Hndl : NoDup (leaves root).*1) by (rewrite Hl; exact Hnd).
  split; [lia|]. rewrite Hcodes. split; [|split].
  - rewrite assign_codes_dom. apply set_eq. intros s.
    rewrite !elem_of_list_to_set, Hl, Hkeys. reflexivity.
  - apply assign_codes_prefix_free; assumption.
  - intros s c Hc. apply assign_codes_lookup in Hc; [|exact Hndl].
    pose proof (Permutation_length Hl) as Hn. split.
    + apply (paths_inner_nonempty root s c Hfull); [|exact Hc].
      apply full_tree_inner; [exact Hfull | lia].
    + pose proof (paths_length_upper root Hfull "" s c Hc) as Hu. simpl in Hu. lia.
Qed.

(** [run_animation] never raises.  When the entry holds only white space it
    asks for text and computes nothing; otherwise it reports, the original
    size is 8 bits per character of the stripped text and positive, so the
    ratio is always the float [(original - compressed) / original * 100],
    the quotient rounded and then the product rounded, never the [int] 0 of
    the [else] branch. *)
Theorem run_animation_outcome (input_text : string) :
  (strip input_text = "" /\
   run_animation input_text = Ok (Prompt "Please enter some text.")) \/
  (strip input_text <> "" /\
   exists r,
     run_animation input_text = Ok (Done r) /\
     original_bits r = (8 * Z.of_nat (String.length (strip input_text)))%Z /\
     (0 < original_bits r)%Z /\
     exists q,
       int_truediv (original_bits r - compressed_bits r) (original_bits r) =
         Computed q /\
       compression_ratio r = Float (SFmul float_prec float_emax q (float_const 100))).
Proof.
  unfold run_animation. destruct (decide (strip input_text = "")) as [He|Hne].
  - left. split; [exact He | reflexivity].
  - right. split; [exact Hne|].
    rewrite animate_frequency_count_counts. mstep.
    destruct (run_huffman_steps_returns
                (map (fun ch => (ch, occurrences ch (chars (lower (strip input_text))))) letters)
                (strip input_text))
      as (root & steps & ratio & _ & Hratio & Hr).
    { apply small_table. rewrite length_map, letters_length. lia. }
    rewrite Hr. mstep. eexists. split; [reflexivity|].
    cbn [original_bits compressed_bits compression_ratio].
    assert (Hpos : 0 < String.length (strip input_text)).
    { destruct (strip input_text); [congruence | simpl; lia]. }
    split; [lia|]. split; [lia|].
    unfold ratio_formula in Hratio.
    rewrite (proj2 (Z.ltb_lt _ _)) in Hratio by lia. exact Hratio.
Qed.
End Program.

Section Sizes.
Implicit Types (codes : gmap Symbol string) (freq_map : list (Symbol * Z))
  (message : list Symbol) (n r : Node).

Lemma sum_with_app {A} (g : A -> Z) (l1 l2 : list A) :
  sum_with g (l1 ++ l2) = (sum_with g l1 + sum_with g l2)%Z.
Proof. induction l1 as [|x l1 IH]; simpl; [reflexivity | rewrite IH; lia]. Qed.

Lemma sum_with_perm {A} (g : A -> Z) (l1 l2 : list A) :
  l1 ≡ₚ l2 -> sum_with g l1 = sum_with g l2.
Proof. induction 1; simpl; lia. Qed.

Lemma sum_with_ext {A} (g h : A -> Z) (l : list A) :
  (forall x, x ∈ l -> g x = h x) -> sum_with g l = sum_with h l.
Proof.
  induction l as [|x l IH]; intros Hgh; [reflexivity|]. simpl.
  rewrite (Hgh x) by apply list_elem_of_here.
  rewrite IH; [reflexivity|]. intros y Hy. apply Hgh, list_elem_of_further, Hy.
Qed.

Lemma sum_with_map {A B} (g : B -> Z) (f : A -> B) (l : list A) :
  sum_with g (map f l) = sum_with (fun x => g (f x)) l.
Proof. induction l as [|x l IH]; simpl; [reflexivity | rewrite IH; reflexivity]. Qed.

Lemma sum_with_plus {A} (g h : A -> Z) (l : list A) :
  sum_with (fun x => (g x + h x)%Z) l = (sum_with g l + sum_with h l)%Z.
Proof. induction l as [|x l IH]; simpl; [reflexivity | rewrite IH; lia]. Qed.

Lemma sum_with_zero {A} (l : list A) : sum_with (fun _ => 0%Z) l = 0%Z.
Proof. induction l as [|x l IH]; simpl; [reflexivity | rewrite IH; reflexivity]. Qed.

(** Among distinct keys, only the key [x] itself contributes. *)
Lemma sum_with_pick (g : Symbol -> Z) (x : Symbol) (keys : list Symbol) :
  NoDup keys ->
  sum_with (fun k => if decide (x = k) then g k else 0%Z) keys =
  if decide (x ∈ keys) then g x else 0%Z.
Proof.
  induction 1 as [|k keys Hk Hnd IH]; simpl.
  - destruct (decide (x ∈ [])) as [Hin|]; [apply elem_of_nil in Hin; destruct Hin | reflexivity].
  - rewrite IH. destruct (decide (x = k)) as [->|Hne].
    + rewrite (decide_True (P := k ∈ k :: keys)) by apply list_elem_of_here.
      rewrite decide_False by exact Hk. lia.
    + destruct (decide (x ∈ keys)) as [Hin|Hout].
      * rewrite decide_True by (apply list_elem_of_further, Hin). lia.
      * rewrite decide_False; [lia|]. rewrite elem_of_cons. tauto.
Qed.

Lemma weighted_depth_huffman n :
  huffman_node n -> forall d,
  weighted_depth n d = (d * freq n + sum_with freq (inner_nodes n))%Z.
Proof.
  induction 1 as [ch f|l r Hl IHl Hr IHr Hle]; intros d.
  - simpl. lia.
  - rewrite inner_nodes_merge. simpl sum_with. rewrite sum_with_app.
    simpl weighted_depth. rewrite IHl, IHr. simpl freq. lia.
Qed.

(** The cost of the leaves of [n] with codes that are the paths below the
    prefix [p]. *)
Lemma coded_size_leaves n codes :
  full_tree n -> forall p,
  (forall s c, (s, c) ∈ paths n p -> codes !!! s = c) ->
  coded_size codes (leaves n) = weighted_depth n (Z.of_nat (String.length p)).
Proof.
  induction 1 as [ch f|f l r Hl IHl Hr IHr]; intros p Hcodes.
  - unfold coded_size. simpl.
    rewrite (Hcodes ch p) by apply list_elem_of_here. lia.
  - unfold coded_size in *. simpl. rewrite sum_with_app.
    rewrite (IHl (p +:+ "0")), (IHr (p +:+ "1")).
    + rewrite !string_length_app. simpl String.length.
      replace (Z.of_nat (String.length p + 1)) with (Z.of_nat (String.length p) + 1)%Z by lia.
      lia.
    + intros s c Hin. apply Hcodes. simpl. apply elem_of_app. right. exact Hin.
    + intros s c Hin. apply Hcodes. simpl. apply elem_of_app. left. exact Hin.
Qed.

Lemma trace_weights_sum (steps : list MergeStep) :
  Forall (fun step : MergeStep => step.2 = (freq step.1.1 + freq step.1.2)%Z) steps ->
  sum_with freq (map merged_node steps) = sum_with snd steps.
Proof.
  induction 1 as [|[[a b] w] steps Hw _ IH]; [reflexivity|].
  simpl in *. rewrite IH, Hw. reflexivity.
Qed.

Lemma coded_size_trace freq_map :
  NoDup freq_map.*1 ->
  exists root steps,
    build_huffman_tree freq_map = Ok (root, steps) /\
    coded_size (assign_codes root "" None) freq_map = sum_with snd steps.
Proof.
  intros Hnd.
  destruct (build_huffman_tree_greedy freq_map) as (root & steps & Hb & Hrun).
  exists root, steps. split; [exact Hb|].
  destruct (decide (freq_map = [])) as [->|Hne].
  - destruct (greedy_run_inv _ _ _ Hrun) as (final & (_ & _ & _ & Hlen & _) & _).
    simpl in Hlen. destruct steps; [reflexivity | simpl in Hlen; lia].
  - destruct (greedy_run_root _ _ _ Hrun Hne) as (r & -> & Hfull & Hl & _).
    destruct (greedy_run_shape _ _ _ Hrun) as (final & (Hn & Hin & _) & Hlen & Hroot).
    destruct final as [|x [|y final]]; simpl in Hlen, Hroot, Hn, Hin;
      try lia; try discriminate.
    injection Hroot as <-. apply Forall_cons in Hn as [Hn _].
    rewrite app_nil_r in Hin.
    unfold coded_size. rewrite <- (sum_with_perm _ _ _ Hl).
    fold (coded_size (assign_codes (Some r) "" None) (leaves r)).
    rewrite (coded_size_leaves r _ Hfull "").
    + rewrite (weighted_depth_huffman r Hn). simpl.
      rewrite (sum_with_perm _ _ _ Hin).
      apply trace_weights_sum. eapply greedy_run_trace; eauto.
    + intros s c Hin'. apply lookup_total_correct.
      apply assign_codes_lookup; [rewrite Hl; exact Hnd | exact Hin'].
Qed.

(** The length of the encoding is the sum, over the keys, of the number of
    occurrences times the length of the code. *)
Lemma encode_skipping_length codes (keys : list Symbol) message :
  NoDup keys -> dom codes = list_to_set keys ->
  Z.of_nat (String.length (encode_skipping message codes)) =
  sum_with (fun k => (occurrences k message
                      * Z.of_nat (String.length (codes !!! k)))%Z) keys.
Proof.
  intros Hnd Hdom. induction message as [|x message IH].
  - rewrite (sum_with_ext _ (fun _ => 0%Z)), sum_with_zero; [reflexivity|].
    intros k _. unfold occurrences. simpl. lia.
  - rewrite (sum_with_ext _ (fun k =>
        ((if decide (x = k) then Z.of_nat (String.length (codes !!! k)) else 0)
         + occurrences k message * Z.of_nat (String.length (codes !!! k)))%Z)).
    2:{ intros k _. rewrite occurrences_cons. destruct (decide (x = k)); lia. }
    rewrite sum_with_plus, <- IH, (sum_with_pick _ x keys Hnd).
    destruct (codes !! x) as [c|] eqn:Hc.
    + rewrite (encode_skipping_cons_in _ _ _ _ Hc), string_length_app.
      rewrite decide_True.
      * rewrite (lookup_total_correct _ _ _ Hc). lia.
      * apply (elem_of_list_to_set (C := gset Symbol)). rewrite <- Hdom.
        apply elem_of_dom. eauto.
    + rewrite (encode_skipping_cons_out _ _ _ Hc).
      rewrite decide_False; [lia|].
      intros Hin. apply (elem_of_list_to_set (C := gset Symbol)) in Hin.
      rewrite <- Hdom in Hin. apply elem_of_dom in Hin as [c Hc']. congruence.
Qed.
End Sizes.

Section SizeResults.
Implicit Types (codes : gmap Symbol string) (freq_map : list (Symbol * Z))
  (message : list Symbol) (text : string).

(** The number of bits that a table costs with its own codes, the sum of
    each count times the length of the symbol's code, is the sum of the
    merged weights of the trace. *)
Theorem coded_size_is_trace_sum (freq_map : list (Symbol * Z)) :
  NoDup freq_map.*1 ->
  exists root steps,
    build_huffman_tree freq_map = Ok (root, steps) /\
    coded_size (assign_codes root "" None) freq_map = sum_with snd steps.
Proof.
  intros Hnd.
  destruct (coded_size_trace freq_map Hnd) as (root & steps & Hb & Hsize).
  exists root, steps. split; [exact Hb | exact Hsize].
Qed.

Lemma coded_size_is_trace_sum_witness :
  NoDup scenario.*1 /\
  exists root steps,
    build_huffman_tree scenario = Ok (root, steps) /\
    coded_size (assign_codes root "" None) scenario = sum_with snd steps.
Proof.
  assert (Hnd : NoDup scenario.*1) by (refine (bool_decide_unpack _ _); vm_compute; exact I).
  split; [exact Hnd|]. exact (coded_size_is_trace_sum scenario Hnd).
Defined.

(** Whatever the text, the compressed size that the program reports is the
    sum of the merged weights of the trace it logs, and the sum over the 26
    letters of the letter's count times the length of its code. *)
Theorem compressed_bits_is_trace_sum (text : string) :
  exists final_freq r,
    animate_frequency_count text = Ok final_freq /\
    run_huffman_steps final_freq text = Ok r /\
    compressed_bits r = coded_size (codes r) final_freq /\
    compressed_bits r = sum_with snd (merge_steps r).
Proof.
  eexists _. rewrite animate_frequency_count_counts.
  set (fm := map (fun ch => (ch, occurrences ch (chars (lower text)))) letters).
  assert (Hkeys : fm.*1 = letters) by apply counted_keys.
  assert (Hnd : NoDup fm.*1) by (rewrite Hkeys; apply letters_NoDup).
  assert (Hlen : length fm = 26) by (unfold fm; rewrite length_map; reflexivity).
  destruct (run_huffman_steps_table fm text Hnd ltac:(lia))
    as (r & root & Hr & Hb & Hcodes & Henc & _ & Hbits & Hfull & Hl).
  exists r. split; [reflexivity|]. split; [exact Hr|].
  assert (Hsize : compressed_bits r = coded_size (codes r) fm).
  { rewrite Hbits, Henc.
    rewrite (encode_skipping_length (codes r) letters _ letters_NoDup).
    - unfold coded_size, fm. rewrite sum_with_map. reflexivity.
    - rewrite Hcodes, assign_codes_dom. apply set_eq. intros s.
      rewrite !elem_of_list_to_set, Hl, Hkeys. reflexivity. }
  split; [exact Hsize|]. rewrite Hsize.
  destruct (coded_size_trace fm Hnd) as (root' & steps' & Hb' & Hcost).
  rewrite Hb in Hb'. injection Hb' as <- <-. rewrite Hcodes. exact Hcost.
Qed.

(** With two distinct symbols or more, two messages that encode to the same
    bitstring have the same symbols of the code table in the same order:
    nothing of what is encoded is lost. *)
Theorem encoding_is_injective (freq_map : list (Symbol * Z)) :
  NoDup freq_map.*1 -> 2 <= length freq_map ->
  exists root steps,
    build_huffman_tree freq_map = Ok (root, steps) /\
    forall (m1 m2 : list Symbol) bits,
      encode m1 (assign_codes root "" None) = Ok bits ->
      encode m2 (assign_codes root "" None) = Ok bits ->
      filter (fun s => s ∈ dom (assign_codes root "" None)) m1 =
      filter (fun s => s ∈ dom (assign_codes root "" None)) m2.
Proof.
  intros Hnd Hlen.
  destruct (build_huffman_tree_root freq_map) as (r & steps & Hb & Hfull & Hl & _).
  { intros ->. simpl in Hlen. lia. }
  exists (Some r), steps. split; [exact Hb|]. intros m1 m2 bits H1 H2.
  rewrite encode_spec in H1, H2.
  assert (He : encode_skipping m1 (assign_codes (Some r) "" None) =
               encode_skipping m2 (assign_codes (Some r) "" None)) by congruence.
  assert (Hdec : forall message,
            decode_walk r r (encode_skipping message (assign_codes (Some r) "" None)) =
            filter (fun s => s ∈ dom (assign_codes (Some r) "" None)) message).
  { apply decode_encode; [exact Hfull | |].
    - apply full_tree_inner; [exact Hfull|]. rewrite (Permutation_length Hl). lia.
    - intros s c. apply assign_codes_lookup. rewrite Hl. exact Hnd. }
  rewrite <- (Hdec m1), <- (Hdec m2), He. reflexivity.
Qed.

Lemma encoding_is_injective_witness :
  NoDup scenario.*1 /\ 2 <= length scenario /\
  exists root steps,
    build_huffman_tree scenario = Ok (root, steps) /\
    forall (m1 m2 : list Symbol) bits,
      encode m1 (assign_codes root "" None) = Ok bits ->
      encode m2 (assign_codes root "" None) = Ok bits ->
      filter (fun s => s ∈ dom (assign_codes root "" None)) m1 =
      filter (fun s => s ∈ dom (assign_codes root "" None)) m2.
Proof.
  assert (Hnd : NoDup scenario.*1) by (refine (bool_decide_unpack _ _); vm_compute; exact I).
  assert (Hlen : 2 <= length scenario) by (simpl; lia).
  repeat (split; [assumption|]).
  exact (encoding_is_injective scenario Hnd Hlen).
Defined.

Lemma encode_skipping_unknown codes message :
  Forall (fun s => s ∉ dom codes) message -> encode_skipping message codes = "".
Proof.
  induction 1 as [|s message Hs _ IH]; [reflexivity|].
  rewrite encode_skipping_cons_out; [exact IH|].
  apply not_elem_of_dom, Hs.
Qed.

(** A text that is not empty and has no letter is encoded to the empty
    bitstring: the compressed size is 0 bits and the ratio the float 100.0. *)
Theorem text_without_letters (text : string) :
  text <> "" -> Forall (fun ch => ch ∉ letters) (chars (lower text)) ->
  exists final_freq r,
    animate_frequency_count text = Ok final_freq /\
    run_huffman_steps final_freq text = Ok r /\
    encoded r = "" /\ compressed_bits r = 0%Z /\
    compression_ratio r = Float (float_const 100).
Proof.
  intros Hne Hnone.
  eexists _. rewrite animate_frequency_count_counts.
  set (fm := map (fun ch => (ch, occurrences ch (chars (lower text)))) letters).
  assert (Hkeys : fm.*1 = letters) by apply counted_keys.
  destruct (run_huffman_steps_returns fm text)
    as (root & steps & ratio & Hb & Hratio & Hr).
  { apply small_table. unfold fm. rewrite length_map, letters_length. lia. }
  eexists. split; [reflexivity|]. split; [exact Hr|].
  cbn [encoded compressed_bits compression_ratio].
  assert (Hdom : dom (assign_codes root "" None) = list_to_set letters).
  { destruct (build_huffman_tree_root fm) as (r & steps' & Hb' & _ & Hl & _).
    - intros Hfm. apply (f_equal length) in Hfm. unfold fm in Hfm.
      rewrite length_map in Hfm. discriminate.
    - rewrite Hb in Hb'. injection Hb' as -> <-.
      rewrite assign_codes_dom. apply set_eq. intros s.
      rewrite !elem_of_list_to_set, Hl, Hkeys. reflexivity. }
  assert (Henc : encode_skipping (chars (lower text)) (assign_codes root "" None) = "").
  { apply encode_skipping_unknown. eapply Forall_impl; [exact Hnone|].
    intros s Hs. rewrite Hdom, elem_of_list_to_set. exact Hs. }
  rewrite Henc in Hratio |- *. split; [reflexivity|]. split; [reflexivity|].
  assert (Hpos : (0 < Z.of_nat (String.length text) * 8)%Z).
  { destruct text; [congruence | simpl String.length; lia]. }
  unfold ratio_formula in Hratio. rewrite (proj2 (Z.ltb_lt _ _) Hpos) in Hratio.
  destruct Hratio as (q & Hq & ->).
  simpl String.length in Hq. simpl Z.of_nat in Hq. rewrite Z.sub_0_r in Hq.
  rewrite int_truediv_same in Hq by lia. injection Hq as <-. reflexivity.
Qed.

Lemma text_without_letters_witness :
  "2 + 2 = 4" <> "" /\
  Forall (fun ch => ch ∉ letters) (chars (lower "2 + 2 = 4")) /\
  exists final_freq r,
    animate_frequency_count "2 + 2 = 4" = Ok final_freq /\
    run_huffman_steps final_freq "2 + 2 = 4" = Ok r /\
    encoded r = "" /\ compressed_bits r = 0%Z /\
    compression_ratio r = Float (float_const 100).
Proof.
  assert (Hne : "2 + 2 = 4" <> "") by discriminate.
  assert (Hnone : Forall (fun ch => ch ∉ letters) (chars (lower "2 + 2 = 4")))
    by (refine (bool_decide_unpack _ _); vm_compute; exact I).
  repeat (split; [assumption|]).
  exact (text_without_letters "2 + 2 = 4" Hne Hnone).
Defined.

Lemma record_all_snoc (m : gmap Symbol string) l kv :
  record_all m (l ++ [kv]) = <[kv.1 := kv.2]> (record_all m l).
Proof. unfold record_all. rewrite foldl_app. reflexivity. Qed.

Lemma record_all_map (g : string -> string) (l : list (Symbol * string)) :
  forall (m : gmap Symbol string) s,
  record_all m (map (fun kv => (kv.1, g kv.2)) l) !! s =
  match record_all ∅ l !! s with
  | Some c => Some (g c)
  | None => m !! s
  end.
Proof.
  induction l as [|[k v] l IH] using rev_ind; intros m s.
  - simpl. rewrite lookup_empty. reflexivity.
  - rewrite map_app. simpl map. rewrite !record_all_snoc. simpl.
    destruct (decide (k = s)) as [->|Hne].
    + rewrite !lookup_insert_eq. reflexivity.
    + rewrite !lookup_insert_ne by exact Hne. apply IH.
Qed.

(** [assign_codes] called with a prefix and a code map of the caller puts
    the prefix before every code and keeps the entries of the map whose key
    is not a symbol of the tree. *)
Theorem assign_codes_with_prefix_and_map (r : Node) (prefix : string)
    (code_map : gmap Symbol string) (s : Symbol) :
  assign_codes (Some r) prefix (Some code_map) !! s =
  match assign_codes (Some r) "" None !! s with
  | Some c => Some (prefix +:+ c)
  | None => code_map !! s
  end.
Proof.
  unfold assign_codes. simpl.
  rewrite !assign_codes_node_paths, (paths_shift r prefix).
  apply record_all_map.
Qed.
End SizeResults.

Section Drawing.
Implicit Types (item : canvas_item) (canvas_width freq : Z).

(** For a count that is not negative, and the default [max_freq] of 10,
    [get_heat_color] returns the seven characters [#ff] and twice the
    two-digit hexadecimal intensity [255 - 18 * min(freq, 10)], between 255
    for a count of 0 and 75 for a count of 10 or more; the floats lose
    nothing. *)
Theorem get_heat_color_scale (freq : Z) :
  (0 <= freq)%Z ->
  let intensity := (255 - 18 * Z.min freq 10)%Z in
  get_heat_color freq 10
    = Computed ("#ff" +:+ (format_02x intensity +:+ format_02x intensity)) /\
  String.length (format_02x intensity) = 2 /\
  (75 <= intensity <= 255)%Z.
Proof.
  intros Hfreq. destruct (decide (10 <= freq)%Z) as [Hbig|Hsmall].
  - unfold get_heat_color. rewrite (Z.min_r freq 10) by exact Hbig.
    vm_compute. repeat split; discriminate.
  - assert (Hcases : freq = 0%Z \/ freq = 1%Z \/ freq = 2%Z \/ freq = 3%Z \/
                     freq = 4%Z \/ freq = 5%Z \/ freq = 6%Z \/ freq = 7%Z \/
                     freq = 8%Z \/ freq = 9%Z) by lia.
    repeat destruct Hcases as [->|Hcases]; try subst freq;
      vm_compute; repeat split; discriminate.
Qed.

Lemma get_heat_color_scale_witness :
  (0 <= 3)%Z /\
  let intensity := (255 - 18 * Z.min 3 10)%Z in
  get_heat_color 3 10
    = Computed ("#ff" +:+ (format_02x intensity +:+ format_02x intensity)) /\
  String.length (format_02x intensity) = 2 /\
  (75 <= intensity <= 255)%Z.
Proof.
  assert (Hfreq : (0 <= 3)%Z) by lia.
  split; [exact Hfreq|]. exact (get_heat_color_scale 3 Hfreq).
Defined.

Lemma draw_input_text_loop_lookup chars_per_row char_width current_index
    (text : list Symbol) : forall (i : Z) (k : nat) item,
  draw_input_text_loop chars_per_row char_width current_index i text !! k = Some item ->
  item_x item = (20 + ((i + Z.of_nat k) mod chars_per_row) * char_width)%Z /\
  item_y item = (100 + ((i + Z.of_nat k) / chars_per_row) * 20)%Z.
Proof.
  induction text as [|ch rest IH]; intros i k item Hk; [discriminate|].
  destruct k as [|k]; simpl in Hk.
  - injection Hk as <-. simpl. rewrite Z.add_0_r. split; reflexivity.
  - apply IH in Hk. replace (i + Z.of_nat (S k))%Z with (i + 1 + Z.of_nat k)%Z by lia.
    exact Hk.
Qed.

(** The characters of the text are laid out in reading order, whatever the
    width of the canvas: a later character is on a lower row, or on the same
    row further right; no two share a place. *)
Theorem draw_input_text_reading_order (canvas_width : Z) (text : string)
    (current_index : Z) (i j : nat) (a b : canvas_item) :
  i < j ->
  draw_input_text canvas_width text current_index !! i = Some a ->
  draw_input_text canvas_width text current_index !! j = Some b ->
  (item_y a < item_y b)%Z \/ (item_y a = item_y b /\ (item_x a < item_x b)%Z).
Proof.
  intros Hij Ha Hb. unfold draw_input_text in Ha, Hb.
  apply draw_input_text_loop_lookup in Ha as [Hxa Hya].
  apply draw_input_text_loop_lookup in Hb as [Hxb Hyb].
  rewrite Hxa, Hya, Hxb, Hyb.
  set (cpr := Z.max 1 ((canvas_width - 40) / 8)) in *.
  assert (Hcpr : (1 <= cpr)%Z) by (unfold cpr; lia).
  clearbody cpr. simpl Z.add.
  assert (Hi : (0 <= Z.of_nat i < Z.of_nat j)%Z) by lia.
  clear Hxa Hya Hxb Hyb Hij.
  set (zi := Z.of_nat i) in *. set (zj := Z.of_nat j) in *. clearbody zi zj.
  Z.div_mod_to_equations. nia.
Qed.

Lemma draw_input_text_reading_order_witness :
  0 < 5 /\
  draw_input_text 60 "huffman" 1 !! 0
    = Some (create_text 20 100 "h" ("Arial", 10%Z) (Some "gray") (Some "input_text")) /\
  draw_input_text 60 "huffman" 1 !! 5
    = Some (create_text 28 140 "a" ("Arial", 10%Z) (Some "black") (Some "input_text")) /\
  ((100 < 140)%Z \/ (100%Z = 140%Z /\ (20 < 28)%Z)).
Proof.
  assert (Hij : 0 < 5) by lia.
  assert (Ha : draw_input_text 60 "huffman" 1 !! 0
    = Some (create_text 20 100 "h" ("Arial", 10%Z) (Some "gray") (Some "input_text")))
    by reflexivity.
  assert (Hb : draw_input_text 60 "huffman" 1 !! 5
    = Some (create_text 28 140 "a" ("Arial", 10%Z) (Some "black") (Some "input_text")))
    by reflexivity.
  repeat (split; [assumption|]).
  exact (draw_input_text_reading_order 60 "huffman" 1 0 5 _ _ Hij Ha Hb).
Defined.

(** On a canvas at least 48 wide every character of the text is put between
    the margins, from [x = 20] to [x = canvas_width - 28], at [y = 100] or
    below. *)
Theorem draw_input_text_within_margins (canvas_width : Z) (text : string)
    (current_index : Z) (item : canvas_item) :
  (48 <= canvas_width)%Z ->
  item ∈ draw_input_text canvas_width text current_index ->
  (20 <= item_x item <= canvas_width - 28)%Z /\ (100 <= item_y item)%Z.
Proof.
  intros Hw Hin. apply list_elem_of_lookup in Hin as [k Hk].
  unfold draw_input_text in Hk.
  apply draw_input_text_loop_lookup in Hk as [-> ->].
  assert (Hcpr : Z.max 1 ((canvas_width - 40) / 8) = ((canvas_width - 40) / 8)%Z).
  { apply Z.max_r. apply Z.div_le_lower_bound; lia. }
  rewrite Hcpr. simpl Z.add.
  assert (Hk : (0 <= Z.of_nat k)%Z) by lia.
  set (zk := Z.of_nat k) in *. clearbody zk.
  Z.div_mod_to_equations. nia.
Qed.

Lemma draw_input_text_within_margins_witness :
  (48 <= 60)%Z /\
  create_text 28 140 "a" ("Arial", 10%Z) (Some "black") (Some "input_text")
    ∈ draw_input_text 60 "huffman" 1 /\
  ((20 <= 28 <= 60 - 28)%Z /\ (100 <= 140)%Z).
Proof.
  assert (Hw : (48 <= 60)%Z) by lia.
  assert (Hin : create_text 28 140 "a" ("Arial", 10%Z) (Some "black") (Some "input_text")
                  ∈ draw_input_text 60 "huffman" 1)
    by (apply list_elem_of_lookup; exists 5; reflexivity).
  repeat (split; [assumption|]).
  exact (draw_input_text_within_margins 60 "huffman" 1 _ Hw Hin).
Defined.

Lemma init_freq_blocks_loop_rects offset_x spacing (freq_values : list Symbol) :
  forall i : Z,
  omap rect_extent (init_freq_blocks_loop offset_x spacing i freq_values) =
  map (fun k => (offset_x + k * spacing, offset_x + k * spacing + spacing - 5)%Z)
    (seqZ i (Z.of_nat (length freq_values))).
Proof.
  induction freq_values as [|letter rest IH]; intros i; [reflexivity|].
  rewrite seqZ_cons by (simpl length; lia).
  simpl. f_equal. rewrite IH. f_equal. f_equal; lia.
Qed.

(** On a canvas at least 196 wide, [init_freq_blocks] draws 26 rectangles
    from left to right: each is at least one unit wide, starts 5 units after
    the one before it ends, and all lie between [x = 20] and
    [x = canvas_width - 25]. *)
Theorem init_freq_blocks_layout (canvas_width : Z) :
  (196 <= canvas_width)%Z ->
  let rects := omap rect_extent (init_freq_blocks canvas_width) in
  length rects = 26 /\
  (forall k x1 x2, rects !! k = Some (x1, x2) ->
     (20 <= x1 /\ x1 < x2 /\ x2 <= canvas_width - 25)%Z) /\
  (forall k x1 x2 x1' x2',
     rects !! k = Some (x1, x2) -> rects !! S k = Some (x1', x2') ->
     x1' = (x2 + 5)%Z).
Proof.
  intros Hw rects. unfold rects, init_freq_blocks.
  rewrite init_freq_blocks_loop_rects.
  set (spacing := ((canvas_width - 40) / 26)%Z).
  set (offset_x := ((canvas_width - spacing * 26) / 2)%Z).
  assert (Hs : (6 <= spacing /\ 26 * spacing <= canvas_width - 40)%Z).
  { unfold spacing. split; [apply Z.div_le_lower_bound; lia|].
    apply Z.mul_div_le. lia. }
  assert (Ho : (20 <= offset_x /\ 2 * offset_x <= canvas_width - 26 * spacing)%Z).
  { unfold offset_x. split; [apply Z.div_le_lower_bound; lia|].
    replace (spacing * 26)%Z with (26 * spacing)%Z by lia.
    apply Z.mul_div_le. lia. }
  clearbody spacing offset_x. change (Z.of_nat (length (map chr (seq 97 26)))) with 26%Z.
  split; [rewrite length_map, length_seqZ; reflexivity|]. split.
  - intros k x1 x2 Hk. rewrite list_lookup_fmap in Hk.
    destruct (seqZ 0 26 !! k) as [z|] eqn:Hz; [|discriminate].
    apply lookup_seqZ in Hz as [-> Hz]. injection Hk as <- <-. nia.
  - intros k x1 x2 x1' x2' Hk Hk'. rewrite list_lookup_fmap in Hk, Hk'.
    destruct (seqZ 0 26 !! k) as [z|] eqn:Hz; [|discriminate].
    destruct (seqZ 0 26 !! S k) as [z'|] eqn:Hz'; [|discriminate].
    apply lookup_seqZ in Hz as [-> Hz]. apply lookup_seqZ in Hz' as [-> Hz'].
    injection Hk as <- <-. injection Hk' as <- <-. lia.
Qed.

Lemma init_freq_blocks_layout_witness :
  (196 <= 940)%Z /\
  let rects := omap rect_extent (init_freq_blocks 940) in
  length rects = 26 /\
  (forall k x1 x2, rects !! k = Some (x1, x2) ->
     (20 <= x1 /\ x1 < x2 /\ x2 <= 940 - 25)%Z) /\
  (forall k x1 x2 x1' x2',
     rects !! k = Some (x1, x2) -> rects !! S k = Some (x1', x2') ->
     x1' = (x2 + 5)%Z).
Proof.
  assert (Hw : (196 <= 940)%Z) by lia.
  split; [exact Hw|]. exact (init_freq_blocks_layout 940 Hw).
Defined.
End Drawing.

Section DepthAssignments.
Implicit Types (l m : list (Z * nat)) (a b : Z) (R : list Z) (B D d : nat).

Lemma pow2_pos (k : nat) : (0 < 2 ^ Z.of_nat k)%Z.
Proof. apply Z.pow_pos_nonneg; lia. Qed.

Lemma pow2_succ (k : nat) : (2 ^ Z.of_nat (S k) = 2 * 2 ^ Z.of_nat k)%Z.
Proof. rewrite Nat2Z.inj_succ. apply Z.pow_succ_r. lia. Qed.

Lemma pow2_even D d : d < D -> exists t, (2 ^ Z.of_nat (D - d) = 2 * t)%Z.
Proof.
  intros Hd. exists (2 ^ Z.of_nat (D - d - 1))%Z.
  replace (D - d) with (S (D - d - 1)) at 1 by lia. apply pow2_succ.
Qed.

Lemma kraft_sum_cons B w d l :
  kraft_sum B ((w, d) :: l) = (2 ^ Z.of_nat (B - d) + kraft_sum B l)%Z.
Proof. reflexivity. Qed.

Lemma cost_cons w d l : cost ((w, d) :: l) = (w * Z.of_nat d + cost l)%Z.
Proof. reflexivity. Qed.

Lemma kraft_sum_nonneg B l : (0 <= kraft_sum B l)%Z.
Proof.
  induction l as [|[w d] l IH]; [reflexivity|].
  rewrite kraft_sum_cons. pose proof (pow2_pos (B - d)). lia.
Qed.

(** Kraft's equality does not depend on the bound. *)
Lemma kraft_sum_scale B D l :
  Forall (fun e => e.2 <= D) l -> D <= B ->
  kraft_sum B l = (2 ^ Z.of_nat (B - D) * kraft_sum D l)%Z.
Proof.
  intros Hl HD. induction Hl as [|[w d] l Hd Hl IH]; [simpl; lia|].
  rewrite !kraft_sum_cons, IH. simpl in Hd.
  replace (B - d) with ((B - D) + (D - d)) by lia.
  rewrite Nat2Z.inj_add, Z.pow_add_r by lia. lia.
Qed.

Lemma kraft_at_lower B D l :
  kraft_at B l -> Forall (fun e => e.2 <= D) l -> D <= B -> kraft_at D l.
Proof.
  intros [_ Hsum] Hl HD. split; [exact Hl|].
  rewrite (kraft_sum_scale B D l Hl HD) in Hsum.
  replace B with ((B - D) + D) in Hsum at 2 by lia.
  rewrite Nat2Z.inj_add, Z.pow_add_r in Hsum by lia.
  pose proof (pow2_pos (B - D)). nia.
Qed.

(** An odd sum has an entry at the deepest level. *)
Lemma odd_sum_deepest D l :
  Forall (fun e => e.2 <= D) l -> (exists k, kraft_sum D l = 2 * k + 1)%Z ->
  exists y l', l ≡ₚ (y, D) :: l'.
Proof.
  induction 1 as [|[w d] l Hd Hl IH]; intros [k Hk].
  - simpl in Hk. lia.
  - simpl in Hd. destruct (decide (d = D)) as [->|Hne].
    + exists w, l. reflexivity.
    + destruct (pow2_even D d ltac:(lia)) as [t Ht].
      rewrite kraft_sum_cons, Ht in Hk.
      destruct IH as (y & l' & Hp); [exists (k - t)%Z; lia|].
      exists y, ((w, d) :: l'). rewrite Hp. apply perm_swap.
Qed.

(** The entry of a given weight can be taken out of a depth assignment. *)
Lemma take_weight a R l :
  map fst l ≡ₚ a :: R -> exists d l', l ≡ₚ (a, d) :: l' /\ map fst l' ≡ₚ R.
Proof.
  intros Hp.
  assert (Hin : a ∈ map fst l) by (rewrite Hp; apply list_elem_of_here).
  apply list_elem_of_fmap in Hin as ([w d] & Hw & Hin). simpl in Hw. subst w.
  apply elem_of_Permutation in Hin as [l' Hl'].
  exists d, l'. split; [exact Hl'|].
  rewrite Hl' in Hp. simpl in Hp. apply Permutation_cons_inv in Hp. exact Hp.
Qed.

(** An entry that is not at the deepest level [D] trades its depth with one
    that is and not lighter: the sum of Kraft is the same and the cost not
    higher. *)
Lemma promote D w d x m :
  d <= D -> (w <= x)%Z ->
  kraft_sum D ((w, D) :: (x, d) :: m) = kraft_sum D ((w, d) :: (x, D) :: m) /\
  (cost ((w, D) :: (x, d) :: m) <= cost ((w, d) :: (x, D) :: m))%Z.
Proof.
  intros Hd Hw. rewrite !kraft_sum_cons, !cost_cons. split; [lia | nia].
Qed.
End DepthAssignments.

Section Exchange.
Implicit Types (l m : list (Z * nat)) (a b : Z) (R : list Z) (B D d : nat).

Lemma deepest_entry l :
  l <> [] ->
  Forall (fun e => e.2 <= max_list (map snd l)) l /\
  exists x l0, l ≡ₚ (x, max_list (map snd l)) :: l0.
Proof.
  intros Hne. split.
  - apply Forall_forall. intros [w d] Hin. apply max_list_elem_of_le.
    apply list_elem_of_fmap. exists (w, d). auto.
  - assert (Hin : max_list (map snd l) ∈ map snd l).
    { apply max_list_elem_of. destruct l; [congruence | discriminate]. }
    apply list_elem_of_fmap in Hin as ([x d] & Hd & Hin). simpl in Hd.
    rewrite <- Hd in Hin. apply elem_of_Permutation in Hin as [l0 Hl0]. eauto.
Qed.

(** The two lightest weights can be made siblings at the deepest level
    without raising the cost, and then be merged: what is left is a depth
    assignment of the other weights and of their sum, cheaper by that sum. *)
Lemma exchange a b R l B :
  (a <= b)%Z -> (forall y, y ∈ R -> (b <= y)%Z) ->
  map fst l ≡ₚ a :: b :: R -> kraft_at B l ->
  exists l' B',
    map fst l' ≡ₚ (a + b)%Z :: R /\ kraft_at B' l' /\ (cost l' + a + b <= cost l)%Z.
Proof.
  intros Hab HR Hw HK.
  assert (Hne : l <> []).
  { intros ->. apply Permutation_nil_cons in Hw. exact Hw. }
  destruct (deepest_entry l Hne) as [HlD (x0 & l0 & Hdeep)].
  set (D := max_list (map snd l)) in *.
  assert (HDB : D <= B).
  { destruct HK as [HB _]. rewrite Hdeep in HB. apply Forall_cons in HB as [HB _].
    exact HB. }
  destruct (kraft_at_lower B D l HK HlD HDB) as [_ HsumD].
  destruct (take_weight a (b :: R) l Hw) as (da & m & Hl & Hm).
  assert (Hlight : forall x, x ∈ map fst m -> (a <= x)%Z).
  { intros x Hx. rewrite Hm in Hx. apply elem_of_cons in Hx as [->|Hx]; [exact Hab|].
    specialize (HR x Hx). lia. }
  (* [a] goes to the deepest level *)
  assert (Ha : exists m1, map fst m1 ≡ₚ b :: R /\
             Forall (fun e => e.2 <= D) m1 /\
             kraft_sum D ((a, D) :: m1) = (2 ^ Z.of_nat D)%Z /\
             (cost ((a, D) :: m1) <= cost l)%Z).
  { rewrite Hl in HlD. apply Forall_cons in HlD as [Hda HmD]. simpl in Hda.
    destruct (decide (da = D)) as [->|Hne'].
    - exists m. split; [exact Hm|]. split; [exact HmD|].
      unfold kraft_sum, cost in *. rewrite <- (sum_with_perm _ _ _ Hl).
      rewrite <- (sum_with_perm _ _ _ Hl). split; [exact HsumD | lia].
    - assert (Hin : (x0, D) ∈ m).
      { assert (Hin : (x0, D) ∈ (a, da) :: m)
          by (rewrite <- Hl, Hdeep; apply list_elem_of_here).
        apply elem_of_cons in Hin as [Heq|Hin]; [congruence | exact Hin]. }
      apply elem_of_Permutation in Hin as [m' Hm'].
      assert (Hx0 : (a <= x0)%Z).
      { apply Hlight. rewrite Hm'. apply list_elem_of_here. }
      exists ((x0, da) :: m'). split; [rewrite <- Hm, Hm'; reflexivity|].
      rewrite Hm' in HmD. apply Forall_cons in HmD as [_ HmD'].
      split; [constructor; [exact Hda | exact HmD']|].
      destruct (promote D a da x0 m' Hda Hx0) as [Hk Hc].
      unfold kraft_sum, cost in HsumD |- *.
      rewrite (sum_with_perm _ _ _ Hl) in HsumD.
      rewrite (sum_with_perm _ l _ Hl).
      assert (Hp : (a, da) :: m ≡ₚ (a, da) :: (x0, D) :: m') by (rewrite Hm'; reflexivity).
      rewrite (sum_with_perm _ _ _ Hp) in HsumD.
      rewrite (sum_with_perm _ ((a, da) :: m) _ Hp).
      unfold kraft_sum, cost in Hk, Hc. split; [rewrite Hk; exact HsumD | exact Hc]. }
  destruct Ha as (m1 & Hm1 & Hm1D & Hsum1 & Hcost1).
  destruct (take_weight b R m1 Hm1) as (db & m2 & Hm12 & Hm2).
  assert (Hheavy : forall y, y ∈ map fst m2 -> (b <= y)%Z).
  { intros y Hy. rewrite Hm2 in Hy. auto. }
  rewrite Hm12 in Hm1D. apply Forall_cons in Hm1D as [Hdb Hm2D]. simpl in Hdb.
  assert (Hsum1' : (1 + (2 ^ Z.of_nat (D - db) + kraft_sum D m2) = 2 ^ Z.of_nat D)%Z).
  { rewrite <- Hsum1. unfold kraft_sum.
    rewrite (sum_with_perm _ ((a, D) :: m1) ((a, D) :: (b, db) :: m2))
      by (rewrite Hm12; reflexivity).
    simpl. rewrite Nat.sub_diag. reflexivity. }
  assert (Hcost1' : cost ((a, D) :: m1) = cost ((a, D) :: (b, db) :: m2)).
  { unfold cost. apply sum_with_perm. rewrite Hm12. reflexivity. }
  assert (HD1 : 1 <= D).
  { destruct D as [|D']; [|lia]. exfalso.
    assert (db = 0) as -> by lia. simpl in Hsum1'.
    pose proof (kraft_sum_nonneg 0 m2). lia. }
  (* [b] goes to the deepest level *)
  assert (Hb : exists m3, map fst m3 ≡ₚ R /\
             Forall (fun e => e.2 <= D) m3 /\
             (1 + (1 + kraft_sum D m3) = 2 ^ Z.of_nat D)%Z /\
             (b * Z.of_nat D + cost m3 <= b * Z.of_nat db + cost m2)%Z).
  { destruct (decide (db = D)) as [->|Hne'].
    - exists m2. split; [exact Hm2|]. split; [exact Hm2D|].
      rewrite Nat.sub_diag in Hsum1'. simpl in Hsum1'. split; [exact Hsum1' | lia].
    - destruct (pow2_even D db ltac:(lia)) as [t Ht].
      destruct (pow2_even D 0 ltac:(lia)) as [u Hu]. rewrite Nat.sub_0_r in Hu.
      destruct (odd_sum_deepest D m2 Hm2D) as (y & m2' & Hm2').
      { exists (u - t - 1)%Z. lia. }
      assert (Hy : (b <= y)%Z).
      { apply Hheavy. rewrite Hm2'. apply list_elem_of_here. }
      exists ((y, db) :: m2'). split; [rewrite <- Hm2, Hm2'; reflexivity|].
      rewrite Hm2' in Hm2D. apply Forall_cons in Hm2D as [_ Hm2D'].
      split; [constructor; [exact Hdb | exact Hm2D']|].
      destruct (promote D b db y m2' Hdb Hy) as [Hk Hc].
      assert (Hk2 : kraft_sum D m2 = kraft_sum D ((y, D) :: m2'))
        by (unfold kraft_sum; apply sum_with_perm, Hm2').
      assert (Hc2 : cost m2 = cost ((y, D) :: m2'))
        by (unfold cost; apply sum_with_perm, Hm2').
      rewrite !kraft_sum_cons in Hk. rewrite !cost_cons in Hc.
      rewrite kraft_sum_cons in Hk2 |- *. rewrite cost_cons in Hc2 |- *.
      rewrite Nat.sub_diag in Hk, Hk2. simpl (2 ^ Z.of_nat 0)%Z in Hk, Hk2.
      split; lia. }
  destruct Hb as (m3 & Hm3 & Hm3D & Hsum3 & Hcost3).
  exists (((a + b)%Z, D - 1) :: m3), D. split; [simpl; rewrite Hm3; reflexivity|].
  split; [split|].
  - constructor; [simpl; lia | exact Hm3D].
  - rewrite kraft_sum_cons. replace (D - (D - 1)) with 1 by lia.
    change (2 ^ Z.of_nat 1)%Z with 2%Z. lia.
  - rewrite cost_cons. rewrite Hcost1', !cost_cons in Hcost1.
    replace (Z.of_nat (D - 1)) with (Z.of_nat D - 1)%Z by lia. lia.
Qed.
End Exchange.

Section TreesAsDepths.
Implicit Types (n t : Node) (d B : nat).

Lemma leaf_depths_weights n : forall d, map fst (leaf_depths n d) = map snd (leaves n).
Proof.
  induction n as [ch f l r IHl IHr] using Node_ind'; intros d. simpl.
  rewrite !map_app. f_equal; [destruct ch; reflexivity|].
  f_equal; [destruct l as [l|] | destruct r as [r|]]; simpl in *; auto.
Qed.

Lemma leaf_depths_cost n : forall d,
  cost (leaf_depths n d) = weighted_depth n (Z.of_nat d).
Proof.
  induction n as [ch f l r IHl IHr] using Node_ind'; intros d.
  unfold cost in *. simpl. rewrite !sum_with_app.
  f_equal; [destruct ch; simpl; lia|].
  replace (Z.of_nat d + 1)%Z with (Z.of_nat (S d)) by lia.
  f_equal; [destruct l as [l|] | destruct r as [r|]]; simpl in *; auto.
Qed.

(** The depths of the leaves of a full tree add up as in Kraft's equality. *)
Lemma leaf_depths_kraft n :
  full_tree n -> forall d B, d + height n <= B ->
  Forall (fun e => e.2 <= B) (leaf_depths n d) /\
  kraft_sum B (leaf_depths n d) = (2 ^ Z.of_nat (B - d))%Z.
Proof.
  induction 1 as [ch f|f l r Hl IHl Hr IHr]; intros d B HB.
  - simpl in *. split; [repeat constructor; simpl; lia|].
    unfold kraft_sum. simpl. lia.
  - simpl in HB. simpl leaf_depths.
    destruct (IHl (S d) B ltac:(lia)) as [Hfl Hkl].
    destruct (IHr (S d) B ltac:(lia)) as [Hfr Hkr].
    split; [apply Forall_app; auto|].
    unfold kraft_sum in *. rewrite sum_with_app, Hkl, Hkr.
    replace (B - d) with (S (B - S d)) by lia. rewrite pow2_succ. lia.
Qed.

Lemma leaf_depths_kraft_at t :
  full_tree t -> kraft_at (height t) (leaf_depths t 0).
Proof.
  intros Hf. destruct (leaf_depths_kraft t Hf 0 (height t) ltac:(lia)) as [H1 H2].
  split; [exact H1|]. rewrite H2. f_equal. lia.
Qed.
End TreesAsDepths.

Section Optimal.
Implicit Types (freq_map : list (Symbol * Z)) (st : list Node * list MergeStep).

Lemma kraft_at_single B w d : kraft_at B [(w, d)] -> d = 0.
Proof.
  intros [Hd Hk]. apply Forall_cons in Hd as [Hd _]. simpl in Hd.
  unfold kraft_sum in Hk. simpl in Hk. rewrite Z.add_0_r in Hk.
  apply Z.pow_inj_r in Hk; lia.
Qed.

(** No depth assignment of the weights of the queue costs less than what the
    trace of a run gains from there to the end. *)
Lemma greedy_lower_bound st st' :
  rtc greedy_step st st' -> length st'.1 <= 1 -> st.1 <> [] ->
  forall l B, map fst l ≡ₚ map freq st.1 -> kraft_at B l ->
  (sum_with snd st'.2 - sum_with snd st.2 <= cost l)%Z.
Proof.
  induction 1 as [st|st st1 st' Hstep Hrtc IH]; intros Hlen Hne l B Hw HK.
  - destruct st as [[|n [|n' q]] tr]; simpl in *; try congruence; try lia.
    apply Permutation_singleton_r in Hw.
    destruct l as [|[w d] [|e l]]; try discriminate.
    apply kraft_at_single in HK as ->. unfold cost. simpl. lia.
  - inversion Hstep as [q q1 q2 q' a b tr Hq Hqa Ha Hqb Hb Hq']; subst.
    simpl in *.
    assert (Hab : (freq a <= freq b)%Z).
    { apply Ha. rewrite Hqa, Hqb. apply list_elem_of_further, list_elem_of_here. }
    assert (HR : forall y, y ∈ map freq q2 -> (freq b <= y)%Z).
    { intros y Hy. apply list_elem_of_fmap in Hy as (n & -> & Hn).
      apply Hb. rewrite Hqb. apply list_elem_of_further, Hn. }
    assert (Hw' : map fst l ≡ₚ freq a :: freq b :: map freq q2).
    { rewrite Hw, Hqa. simpl. rewrite Hqb. reflexivity. }
    destruct (exchange _ _ _ _ _ Hab HR Hw' HK) as (l' & B' & Hl' & HK' & Hc).
    assert (Hne' : q' <> []).
    { intros ->. apply Permutation_nil_cons in Hq'. exact Hq'. }
    assert (Hw1 : map fst l' ≡ₚ map freq q').
    { rewrite Hl', Hq'. reflexivity. }
    specialize (IH Hlen Hne' l' B' Hw1 HK').
    rewrite sum_with_app in IH. simpl in IH. lia.
Qed.

(** The trace of the run on [freq_map] adds up to no more than the weighted
    depth of any full tree with the entries of [freq_map] as leaves. *)
Lemma greedy_run_optimal freq_map root trace t :
  greedy_run freq_map root trace ->
  full_tree t -> leaves t ≡ₚ freq_map ->
  (sum_with snd trace <= weighted_depth t 0)%Z.
Proof.
  intros (final & Hrtc & Hlen & _) Hf Hl.
  change 0%Z with (Z.of_nat 0). rewrite <- leaf_depths_cost.
  assert (Hne : map leaf_of freq_map <> []).
  { pose proof (full_tree_leaves_pos t Hf) as Hpos.
    rewrite (Permutation_length Hl) in Hpos.
    destruct freq_map; [simpl in Hpos; lia | discriminate]. }
  pose proof (greedy_lower_bound _ _ Hrtc Hlen Hne (leaf_depths t 0) (height t)) as Hb.
  simpl in Hb. rewrite Z.sub_0_r in Hb. apply Hb.
  - rewrite leaf_depths_weights, Hl, map_map. reflexivity.
  - apply leaf_depths_kraft_at, Hf.
Qed.

(** What the table costs with the codes of a full tree on its entries. *)
Lemma coded_size_full_tree freq_map t :
  NoDup freq_map.*1 -> full_tree t -> leaves t ≡ₚ freq_map ->
  coded_size (assign_codes (Some t) "" None) freq_map = weighted_depth t 0.
Proof.
  intros Hnd Hf Hl. unfold coded_size. rewrite <- (sum_with_perm _ _ _ Hl).
  fold (coded_size (assign_codes (Some t) "" None) (leaves t)).
  rewrite (coded_size_leaves t _ Hf ""); [reflexivity|].
  intros s c Hin. apply lookup_total_correct.
  apply assign_codes_lookup; [rewrite Hl; exact Hnd | exact Hin].
Qed.

Lemma huffman_optimal_weighted freq_map :
  NoDup freq_map.*1 ->
  exists root steps,
    build_huffman_tree freq_map = Ok (root, steps) /\
    forall t, full_tree t -> leaves t ≡ₚ freq_map ->
      (coded_size (assign_codes root "" None) freq_map <=
       coded_size (assign_codes (Some t) "" None) freq_map)%Z.
Proof.
  intros Hnd.
  destruct (build_huffman_tree_greedy freq_map) as (root & steps & Hb & Hrun).
  destruct (coded_size_trace freq_map Hnd) as (root' & steps' & Hb' & Hsize).
  assert (He : Ok (root', steps') = Ok (root, steps)) by congruence.
  injection He as -> ->.
  exists root, steps. split; [exact Hb|]. intros t Hf Hl.
  rewrite Hsize, (coded_size_full_tree freq_map t Hnd Hf Hl).
  eapply greedy_run_optimal; eauto.
Qed.

Lemma with_counts_full g t : full_tree t -> full_tree (with_counts g t).
Proof. induction 1; simpl; constructor; assumption. Qed.

Lemma with_counts_paths g n : forall p, paths (with_counts g n) p = paths n p.
Proof.
  induction n as [ch f l r IHl IHr] using Node_ind'; intros p. simpl.
  f_equal. f_equal; [destruct l as [l|] | destruct r as [r|]]; simpl in *; auto.
Qed.

Lemma with_counts_leaves g n :
  leaves (with_counts g n) = map (fun s => (s, g s)) (leaves n).*1.
Proof.
  induction n as [ch f l r IHl IHr] using Node_ind'. simpl.
  rewrite !fmap_app.
  f_equal; [destruct ch; reflexivity|].
  f_equal; [destruct l as [l|] | destruct r as [r|]]; simpl in *; auto.
Qed.

Lemma with_counts_codes g t :
  assign_codes (Some (with_counts g t)) "" None = assign_codes (Some t) "" None.
Proof.
  unfold assign_codes. rewrite !assign_codes_node_paths, with_counts_paths.
  reflexivity.
Qed.

Lemma count_of_entries freq_map :
  NoDup freq_map.*1 ->
  map (fun s => (s, count_of freq_map s)) freq_map.*1 = freq_map.
Proof.
  intros Hnd. rewrite <- list_fmap_compose.
  transitivity (id <$> freq_map); [|apply list_fmap_id].
  apply list_fmap_ext. intros i [s w] Hi. simpl. unfold count_of.
  rewrite (elem_of_list_to_map_1 freq_map s w Hnd); [reflexivity|].
  eapply list_elem_of_lookup_2, Hi.
Qed.

(** The code table of the tree that [build_huffman_tree] returns costs no
    more bits than the code table of any full tree on the same symbols: the
    code is optimal, whatever the counts, negative ones included. *)
Theorem huffman_code_is_optimal (freq_map : list (Symbol * Z)) :
  NoDup freq_map.*1 ->
  exists root steps,
    build_huffman_tree freq_map = Ok (root, steps) /\
    forall t, full_tree t -> (leaves t).*1 ≡ₚ freq_map.*1 ->
      (coded_size (assign_codes root "" None) freq_map <=
       coded_size (assign_codes (Some t) "" None) freq_map)%Z.
Proof.
  intros Hnd.
  destruct (huffman_optimal_weighted freq_map Hnd) as (root & steps & Hb & Hopt).
  exists root, steps. split; [exact Hb|]. intros t Hf Hkeys.
  rewrite <- (with_counts_codes (count_of freq_map) t).
  apply Hopt; [apply with_counts_full, Hf|].
  rewrite with_counts_leaves, Hkeys. rewrite count_of_entries by exact Hnd.
  reflexivity.
Qed.

Lemma huffman_code_is_optimal_witness :
  NoDup scenario.*1 /\
  exists root steps,
    build_huffman_tree scenario = Ok (root, steps) /\
    forall t, full_tree t -> (leaves t).*1 ≡ₚ scenario.*1 ->
      (coded_size (assign_codes root "" None) scenario <=
       coded_size (assign_codes (Some t) "" None) scenario)%Z.
Proof.
  assert (Hnd : NoDup scenario.*1) by (refine (bool_decide_unpack _ _); vm_compute; exact I).
  split; [exact Hnd|]. exact (huffman_code_is_optimal scenario Hnd).
Defined.

(** Whatever the text, the program's encoding of it is no longer than its
    encoding, made the same way, with the code table of any full tree on the
    26 letters. *)
Theorem program_encoding_is_shortest (text : string) :
  exists final_freq r,
    animate_frequency_count text = Ok final_freq /\
    run_huffman_steps final_freq text = Ok r /\
    forall t, full_tree t -> (leaves t).*1 ≡ₚ letters ->
      (compressed_bits r <=
       Z.of_nat (String.length
         (encode_skipping (chars (lower text)) (assign_codes (Some t) "" None))))%Z.
Proof.
  eexists _. rewrite animate_frequency_count_counts.
  set (fm := map (fun ch => (ch, occurrences ch (chars (lower text)))) letters).
  assert (Hkeys : fm.*1 = letters) by apply counted_keys.
  assert (Hnd : NoDup fm.*1) by (rewrite Hkeys; apply letters_NoDup).
  assert (Hlen : length fm = 26) by (unfold fm; rewrite length_map; reflexivity).
  destruct (run_huffman_steps_table fm text Hnd ltac:(lia))
    as (r & root & Hr & Hb & Hcodes & Henc & _ & Hbits & Hfull & Hl).
  exists r. split; [reflexivity|]. split; [exact Hr|]. intros t Hf Ht.
  assert (Hsize : forall t', (leaves t').*1 ≡ₚ letters ->
    Z.of_nat (String.length
      (encode_skipping (chars (lower text)) (assign_codes (Some t') "" None))) =
    coded_size (assign_codes (Some t') "" None) fm).
  { intros t' Ht'.
    rewrite (encode_skipping_length _ letters _ letters_NoDup).
    - unfold coded_size, fm. rewrite sum_with_map. reflexivity.
    - rewrite assign_codes_dom. apply set_eq. intros s.
      rewrite !elem_of_list_to_set, Ht'. reflexivity. }
  rewrite Hbits, Henc, Hcodes.
  rewrite (Hsize root) by (rewrite Hl, Hkeys; reflexivity).
  rewrite (Hsize t Ht).
  destruct (huffman_optimal_weighted fm Hnd) as (root' & steps' & Hb' & Hopt).
  rewrite Hb in Hb'. injection Hb' as <- <-.
  rewrite <- (with_counts_codes (count_of fm) t).
  apply Hopt; [apply with_counts_full, Hf|].
  rewrite with_counts_leaves, Ht, <- Hkeys. rewrite count_of_entries by exact Hnd.
  reflexivity.
Qed.
End Optimal.
